(** * ng-error-handler: the [ErrorHandler] service of [src/error.handler.ts]

    A shallow embedding of the service that maps server-side and local
    validation failures onto an Angular reactive form, followed by the
    properties of the server-error mapper, the local-validation scanner and
    the message formatter.

    The embedding has four layers:
    - [Js]: the JavaScript values the service handles (payloads, failure
      kinds, messages) with truthiness, [ToString], [Object.keys] and
      property reads;
    - [Descriptor]: plain objects with property attributes, as far as
      [Object.defineProperty (o, k, {value, writable: true})] needs them;
    - [Forms]: the part of [@angular/forms] the service calls
      ([AbstractControl.get], [setErrors], the status flags);
    - [ErrorHandler]: the class itself, method by method, in a state and
      exception monad over the fields of [this]. *)

From Stdlib Require Import Ascii String.
From stdpp Require Import gmap strings list fin_maps pretty.

Set Warnings "-register-all".

Open Scope string_scope.

(** ** Association lists

    JavaScript objects enumerate their own keys in a fixed order, so the
    objects whose keys the service iterates ([Object.keys]) are association
    lists given in enumeration order.  The own property [o[k]] is read with [own_get]
    (first match); the lists that come from real objects have pairwise
    distinct keys. *)

Fixpoint own_get {A : Type} (k : string) (l : list (string * A)) : option A :=
  match l with
  | [] => None
  | (k', x) :: rest => if decide (k' = k) then Some x else own_get k rest
  end.

(** [own_set k x l] stores [x] in the entry that [own_get k l] reads. *)
Fixpoint own_set {A : Type} (k : string) (x : A) (l : list (string * A))
  : list (string * A) :=
  match l with
  | [] => []
  | (k', y) :: rest =>
      if decide (k' = k) then (k', x) :: rest else (k', y) :: own_set k x rest
  end.

(** The keys ["0"], ["1"], ... of an array (or string) of length [n]. *)
Definition index_keys (n : nat) : list string := pretty <$> seq 0 n.

(** [a[name]] on an array of length [n]: the index whose canonical decimal
    spelling is [name], if any. *)
Definition index_of (name : string) (n : nat) : option nat :=
  fst <$> list_find (λ k, k = name) (index_keys n).

Module Js.

(** JSON-shaped values plus [undefined].  Numbers are the integers (their
    [ToString] is the decimal numeral, as JavaScript prints integers below
    1e21); strings are taken one character per code unit. *)
Inductive value : Type :=
| Undefined
| Null
| Bool (b : bool)
| Number (n : Z)
| Str (s : string)
| Array (items : list value)
| Object (props : list (string * value)).

(** ToBoolean. *)
Definition truthy (v : value) : bool :=
  match v with
  | Undefined | Null => false
  | Bool b => b
  | Number n => negb (bool_decide (n = 0%Z))
  | Str s => negb (bool_decide (s = ""))
  | Array _ | Object _ => true
  end.

Definition isArray (v : value) : bool :=
  match v with Array _ => true | _ => false end.

(** ToString, as used by template literals.  [Array.prototype.join]
    prints [undefined] and [null] elements as the empty string. *)
Fixpoint ToString (v : value) : string :=
  match v with
  | Undefined => "undefined"
  | Null => "null"
  | Bool true => "true"
  | Bool false => "false"
  | Number n => pretty n
  | Str s => s
  | Array items =>
      (fix join (xs : list value) : string :=
         match xs with
         | [] => ""
         | x :: rest =>
             let piece := match x with
                          | Undefined | Null => ""
                          | _ => ToString x
                          end in
             match rest with
             | [] => piece
             | _ :: _ => piece +:+ "," +:+ join rest
             end
         end) items
  | Object _ => "[object Object]"
  end.

(** [Object.keys v]; [None] is the TypeError on [undefined] and [null]. *)
Definition keys (v : value) : option (list string) :=
  match v with
  | Undefined | Null => None
  | Bool _ | Number _ => Some []
  | Str s => Some (index_keys (String.length s))
  | Array items => Some (index_keys (length items))
  | Object props => Some (fst <$> props)
  end.

(** The property read [v[k]]; [None] is the TypeError on [undefined] and
    [null].  The inherited members of strings and arrays ([length] and the
    methods) are not part of the model. *)
Definition get (v : value) (k : string) : option value :=
  match v with
  | Undefined | Null => None
  | Bool _ | Number _ => Some Undefined
  | Str s =>
      Some (match index_of k (String.length s) ≫= λ i, String.get i s with
            | Some c => Str (String c EmptyString)
            | None => Undefined
            end)
  | Array items =>
      Some (default Undefined (index_of k (length items) ≫= λ i, items !! i))
  | Object props => Some (default Undefined (own_get k props))
  end.

End Js.

Module Descriptor.

(** A data property with its attributes. *)
Record Property (V : Type) : Type := mkProperty {
  value : V;
  writable : bool;
  enumerable : bool;
  configurable : bool
}.
Arguments mkProperty {V} _ _ _ _.
Arguments value {V} _.
Arguments writable {V} _.
Arguments enumerable {V} _.
Arguments configurable {V} _.

(** An ordinary object: its own data properties and its [[Extensible]]
    flag.  Accessor properties are not modelled. *)
Record Obj (V : Type) : Type := mkObj {
  properties : gmap string (Property V);
  extensible : bool
}.
Arguments mkObj {V} _ _.
Arguments properties {V} _.
Arguments extensible {V} _.

(** The object literal [{}]. *)
Definition empty {V : Type} : Obj V := mkObj ∅ true.

(** The property that [{value: v, writable: true}] leaves behind: a new
    property gets the defaults [enumerable: false, configurable: false],
    an existing one keeps the attributes the descriptor does not name. *)
Definition defined {V : Type} (current : option (Property V)) (v : V)
  : Property V :=
  match current with
  | None => mkProperty v true false false
  | Some p => mkProperty v true (enumerable p) (configurable p)
  end.

(** The object once the definition of [k] is applied. *)
Definition write {V : Type} (o : Obj V) (k : string) (v : V) : Obj V :=
  mkObj (<[k := defined (properties o !! k) v]> (properties o)) (extensible o).

(** Whether [Object.defineProperty (o, k, {value, writable: true})] is
    accepted (ValidateAndApplyPropertyDescriptor): a missing property needs
    an extensible object; a non-configurable property must be writable. *)
Definition accepts {V : Type} (o : Obj V) (k : string) : bool :=
  match properties o !! k with
  | None => extensible o
  | Some p => configurable p || writable p
  end.

(** [Object.defineProperty (o, k, {value: v, writable: true})]; [None] is
    the TypeError of a rejected definition. *)
Definition defineProperty {V : Type} (o : Obj V) (k : string) (v : V)
  : option (Obj V) :=
  if accepts o k then Some (write o k v) else None.

(** The read [o[k]] of an own property. *)
Definition read {V : Type} (o : Obj V) (k : string) : option V :=
  value <$> properties o !! k.

(** Mutation of the object a property refers to: the value changes, the
    attributes stay. *)
Definition update {V : Type} (o : Obj V) (k : string) (v : V) : Obj V :=
  mkObj (alter (λ p, mkProperty v (writable p) (enumerable p) (configurable p))
               k (properties o))
        (extensible o).

End Descriptor.

Module Forms.

(** [AbstractControl.status]. *)
Inductive Status : Type := VALID | INVALID | PENDING | DISABLED.

#[export] Instance Status_eq_dec : EqDecision Status.
Proof. solve_decision. Defined.

(** [ValidationErrors]: an object from failure kind to its parameters. *)
Definition ValidationErrors : Type := list (string * Js.value).

(** The properties of a control the service reads or writes.  [errors] is
    [None] for [null]. *)
Record ControlState : Type := mkState {
  status : Status;
  errors : option ValidationErrors;
  dirty : bool;
  touched : bool
}.

(** The three control classes.  A [FormGroup] lists its [controls] in
    [Object.keys] order; a [FormArray] holds its rows in order. *)
Inductive AbstractControl : Type :=
| FormControl (st : ControlState)
| FormGroup (st : ControlState) (controls : list (string * AbstractControl))
| FormArray (st : ControlState) (controls : list AbstractControl).

Definition state (c : AbstractControl) : ControlState :=
  match c with
  | FormControl st | FormGroup st _ | FormArray st _ => st
  end.

Definition with_state (st : ControlState) (c : AbstractControl)
  : AbstractControl :=
  match c with
  | FormControl _ => FormControl st
  | FormGroup _ cs => FormGroup st cs
  | FormArray _ cs => FormArray st cs
  end.

Definition invalid (c : AbstractControl) : bool :=
  bool_decide (status (state c) = INVALID).

Definition enabled (c : AbstractControl) : bool :=
  negb (bool_decide (status (state c) = DISABLED)).

(** The [controls] property as a keyed collection: the members of a group,
    the rows of an array under the keys ["0"], ["1"], ...; a [FormControl]
    has no such property ([None] for [undefined]). *)
Definition controls_of (c : AbstractControl)
  : option (list (string * AbstractControl)) :=
  match c with
  | FormControl _ => None
  | FormGroup _ cs => Some cs
  | FormArray _ cs => Some (zip (index_keys (length cs)) cs)
  end.

(** One step of a path: a group resolves an own member, an array the row
    whose index the segment spells, a leaf nothing. *)
Definition find_child (c : AbstractControl) (name : string)
  : option AbstractControl :=
  match c with
  | FormControl _ => None
  | FormGroup _ cs => own_get name cs
  | FormArray _ cs => index_of name (length cs) ≫= λ i, cs !! i
  end.

Fixpoint find_path (path : list string) (c : AbstractControl)
  : option AbstractControl :=
  match path with
  | [] => Some c
  | name :: rest => find_child c name ≫= find_path rest
  end.

(** [path.split('.')]. *)
Fixpoint split_path (path : string) : list string :=
  match path with
  | EmptyString => [""]
  | String ch rest =>
      if decide (ch = "."%char) then "" :: split_path rest
      else match split_path rest with
           | [] => [String ch ""]
           | seg :: segs => String ch seg :: segs
           end
  end.

(** Modelled from the spec: [AbstractControl.get] belongs to
    [@angular/forms], which the repository imports and does not contain.
    Section 3 gives it as the path-based lookup that resolves dotted paths
    through groups, section 4.1 as returning not-found when no match exists
    at any level; below an array a segment is resolved as the library does,
    as the index of a row. *)
Definition get (c : AbstractControl) (path : string)
  : option AbstractControl :=
  match split_path path with
  | [] => None
  | segs => find_path segs c
  end.

(** [_allControlsDisabled]. *)
Definition allControlsDisabled (c : AbstractControl) : bool :=
  match c with
  | FormControl _ => negb (enabled c)
  | FormGroup _ cs =>
      forallb (λ k, from_option (λ ch, negb (enabled ch)) true (own_get k cs))
              (fst <$> cs)
      && (bool_decide (0 < length cs) || negb (enabled c))
  | FormArray _ cs =>
      forallb (λ ch, negb (enabled ch)) cs
      && (bool_decide (0 < length cs) || negb (enabled c))
  end.

(** [_anyControlsHaveStatus]: some enabled child has the status. *)
Definition anyControlsHaveStatus (s : Status) (c : AbstractControl) : bool :=
  let hit ch := enabled ch && bool_decide (status (state ch) = s) in
  match c with
  | FormControl _ => false
  | FormGroup _ cs =>
      existsb (λ k, from_option hit false (own_get k cs)) (fst <$> cs)
  | FormArray _ cs => existsb hit cs
  end.

(** [_calculateStatus]. *)
Definition calculateStatus (c : AbstractControl) : Status :=
  if allControlsDisabled c then DISABLED
  else match errors (state c) with
       | Some _ => INVALID
       | None =>
           if anyControlsHaveStatus PENDING c then PENDING
           else if anyControlsHaveStatus INVALID c then INVALID
           else VALID
       end.

(** [_updateControlsErrors] at one control: the status is recomputed. *)
Definition updateControlsErrors (c : AbstractControl) : AbstractControl :=
  let st := state c in
  with_state (mkState (calculateStatus c) (errors st) (dirty st) (touched st)) c.

(** Modelled from the spec: [AbstractControl.setErrors] belongs to
    [@angular/forms].  Section 4.2 has the mapper attach a failure kind to the
    field by it: the control's [errors] become the given object, and, as in
    the library, its status is recomputed. *)
Definition setErrors (errs : ValidationErrors) (c : AbstractControl)
  : AbstractControl :=
  let st := state c in
  updateControlsErrors
    (with_state (mkState (status st) (Some errs) (dirty st) (touched st)) c).

(** The child that [find_child c name] reads, replaced. *)
Definition replace_child (c : AbstractControl) (name : string)
  (child : AbstractControl) : AbstractControl :=
  match c with
  | FormControl st => FormControl st
  | FormGroup st cs => FormGroup st (own_set name child cs)
  | FormArray st cs =>
      match index_of name (length cs) with
      | Some i => FormArray st (<[i := child]> cs)
      | None => FormArray st cs
      end
  end.

(** A mutation [f] of the control that [path] reaches from [c], seen from
    [c]: the control is replaced in its parent and, since
    [_updateControlsErrors] goes on to [_parent], every control on the way
    has its status recomputed.  [None] when the path reaches nothing. *)
Fixpoint update_path (path : list string) (f : AbstractControl → AbstractControl)
  (c : AbstractControl) : option AbstractControl :=
  match path with
  | [] => Some (f c)
  | name :: rest =>
      child ← find_child c name;
      child' ← update_path rest f child;
      Some (updateControlsErrors (replace_child c name child'))
  end.

(** [markAsTouched({onlySelf: true})]: the flag of the control itself. *)
Definition markAsTouched (c : AbstractControl) : AbstractControl :=
  let st := state c in
  with_state (mkState (status st) (errors st) (dirty st) true) c.

(** Modelled from the spec: [markAllAsTouched] belongs to [@angular/forms].
    Section 4.3 has [invalidFormHasSubmit] mark every field of the form as
    touched by it: the control itself and, as in the library, every control
    below it. *)
Fixpoint markAllAsTouched (c : AbstractControl) : AbstractControl :=
  markAsTouched
    match c with
    | FormControl st => FormControl st
    | FormGroup st cs =>
        FormGroup st ((λ '(k, child), (k, markAllAsTouched child)) <$> cs)
    | FormArray st cs => FormArray st (markAllAsTouched <$> cs)
    end.

End Forms.

Module ErrorHandler.
Import Forms.

(** What the accumulator ([errorObject]) holds under a key: a value the
    caller or [setErrorToErrorObject] put there, or the array of per-row
    objects that [findErrors] creates for a [FormArray]. *)
Inductive Slot : Type :=
| Plain (v : Js.value)
| Rows (rows : list (Descriptor.Obj Js.value)).

(** What the page is shown besides the form: [alert] and [console.log]. *)
Inductive Signal : Type :=
| alert (text : string)
| console_log (v : Js.value).

(** The fields of the service, together with the signals raised so far.
    [form] is [None] until a method stores one.  The form and the
    accumulator are the caller's objects; the service keeps references,
    so their state after a call is the state held here. *)
Record State : Type := mkHandler {
  form : option AbstractControl;
  serverError : Js.value;
  errorObject : Descriptor.Obj Slot;
  message : Js.value;
  signals : list Signal
}.

Inductive Exception : Type := TypeError (reason : string).

(** How a call ends, and the state it leaves: a thrown exception does not
    undo the mutations before it. *)
Inductive Outcome (A : Type) : Type :=
| Normal (a : A) (s : State)
| Thrown (e : Exception) (s : State).
Arguments Normal {A} _ _.
Arguments Thrown {A} _ _.

Definition M (A : Type) : Type := State → Outcome A.

#[export] Instance M_ret : MRet M := λ A a s, Normal a s.

#[export] Instance M_bind : MBind M := λ A B f m s,
  match m s with
  | Normal a s' => f a s'
  | Thrown e s' => Thrown e s'
  end.

Definition final {A : Type} (o : Outcome A) : State :=
  match o with Normal _ s | Thrown _ s => s end.

Definition gets {A : Type} (f : State → A) : M A := λ s, Normal (f s) s.

Definition modify (f : State → State) : M unit := λ s, Normal tt (f s).

Definition throw {A : Type} (reason : string) : M A :=
  λ s, Thrown (TypeError reason) s.

(** A partial operation of the runtime, throwing where it is undefined. *)
Definition require {A : Type} (reason : string) (o : option A) : M A :=
  match o with
  | Some a => mret a
  | None => throw reason
  end.

(** [xs.forEach(f)]. *)
Fixpoint forEach {A : Type} (xs : list A) (f : A → M unit) : M unit :=
  match xs with
  | [] => mret tt
  | x :: rest => f x;; forEach rest f
  end.

(** Assignments to the fields. *)
Definition with_form (f : AbstractControl) (s : State) : State :=
  mkHandler (Some f) (serverError s) (errorObject s) (message s) (signals s).

Definition with_serverError (v : Js.value) (s : State) : State :=
  mkHandler (form s) v (errorObject s) (message s) (signals s).

Definition with_errorObject (o : Descriptor.Obj Slot) (s : State) : State :=
  mkHandler (form s) (serverError s) o (message s) (signals s).

Definition with_message (v : Js.value) (s : State) : State :=
  mkHandler (form s) (serverError s) (errorObject s) v (signals s).

Definition with_signal (x : Signal) (s : State) : State :=
  mkHandler (form s) (serverError s) (errorObject s) (message s)
            (signals s ++ [x])%list.

Definition set_form (f : AbstractControl) : M unit := modify (with_form f).

Definition set_serverError (v : Js.value) : M unit :=
  modify (with_serverError v).

Definition set_errorObject (o : Descriptor.Obj Slot) : M unit :=
  modify (with_errorObject o).

Definition set_message (v : Js.value) : M unit := modify (with_message v).

Definition signal (x : Signal) : M unit := modify (with_signal x).

(** [v[k]]. *)
Definition prop (v : Js.value) (k : string) : M Js.value :=
  require "Cannot read properties of undefined or null" (Js.get v k).

(** [Object.keys(v)]. *)
Definition Object_keys (v : Js.value) : M (list string) :=
  require "Cannot convert undefined or null to object" (Js.keys v).

(** [Object.defineProperty(this.errorObject, key, {value, writable: true})]. *)
Definition defineProperty_errorObject (key : string) (value : Slot) : M unit :=
  o ← gets errorObject;
  o' ← require "Cannot define property" (Descriptor.defineProperty o key value);
  set_errorObject o'.

(** A reference to a control of [this.form]: the path that leads to it. *)
Definition Ref : Type := list string.

(** [this.form.get(path)]: the control found, or [None] for [null]. *)
Definition form_get (path : string) : M (option Ref) :=
  f ← gets form;
  f ← require "Cannot read properties of undefined (reading 'get')" f;
  mret (match get f path with
        | Some _ => Some (split_path path)
        | None => None
        end).

(** [r.get(path)] for a control [r] found before. *)
Definition ref_get (r : Ref) (path : string) : M (option Ref) :=
  f ← gets form;
  f ← require "Cannot read properties of undefined (reading 'get')" f;
  mret (match find_path r f ≫= λ c, get c path with
        | Some _ => Some (r ++ split_path path)%list
        | None => None
        end).

(** [r.setErrors(errs)] for a control [r] found before. *)
Definition ref_setErrors (r : Ref) (errs : ValidationErrors) : M unit :=
  f ← gets form;
  f ← require "Cannot read properties of undefined" f;
  f' ← require "Cannot read properties of null (reading 'setErrors')"
         (update_path r (setErrors errs) f);
  set_form f'.

(** [controls[control]] for a key of [controls]. *)
Definition control_at (controls : list (string * AbstractControl))
  (control : string) : M AbstractControl :=
  require "Cannot read properties of undefined" (own_get control controls).

(** Line 19: invalid, and dirty or touched. *)
Definition hasError (control : AbstractControl) : bool :=
  invalid control && (dirty (state control) || touched (state control)).

(** Lines 149-167.  [errors] is what [control.errors] held, [None] for
    [null]; the first read then throws. *)
Definition setErrorMessage (errors : option ValidationErrors) : M unit :=
  let errors := match errors with
                | Some kinds => Js.Object kinds
                | None => Js.Null
                end in
  maxlength ← prop errors "maxlength";
  if Js.truthy maxlength then
    actualLength ← prop maxlength "actualLength";
    requiredLength ← prop maxlength "requiredLength";
    set_message (Js.Str ("Gjatësia maksimale e lejuar "
                         +:+ Js.ToString actualLength +:+ "/"
                         +:+ Js.ToString requiredLength))
  else
  email ← prop errors "email";
  if Js.truthy email then
    set_message (Js.Str "Email nuk është i saktë")
  else
  required ← prop errors "required";
  if Js.truthy required then
    set_message (Js.Str "Fushë e detyrueshme")
  else
  min ← prop errors "min";
  if Js.truthy min then
    bound ← prop min "min";
    actual ← prop min "actual";
    set_message (Js.Str ("Vlera minimale është " +:+ Js.ToString bound
                         +:+ ", vlera aktuale " +:+ Js.ToString actual))
  else
  max ← prop errors "max";
  if Js.truthy max then
    bound ← prop max "max";
    actual ← prop max "actual";
    set_message (Js.Str ("Vlera maksimale është " +:+ Js.ToString bound
                         +:+ ", vlera aktuale " +:+ Js.ToString actual))
  else
  pattern ← prop errors "pattern";
  if Js.truthy pattern then
    set_message (Js.Str "Vlera e dhënë nuk është e saktë")
  else
  serverError ← prop errors "serverError";
  if Js.truthy serverError then
    set_message serverError
  else
    set_message (Js.Str "").

(** Lines 173-175. *)
Definition setErrorToErrorObject (field : string) : M unit :=
  m ← gets message;
  defineProperty_errorObject field (Plain m).

(** Lines 137-142. *)
Definition findErrorsOnFormControls (controls : list (string * AbstractControl))
  (control : string) : M unit :=
  c ← control_at controls control;
  if hasError c then
    setErrorMessage (errors (state c));;
    setErrorToErrorObject control
  else mret tt.

(** [this.errorObject[formArrayName]], which the loop of
    [findErrorsOnFormArrays] calls [formArrayErrors]: the array lives in the
    accumulator, every use reads it there and every mutation is stored
    back. *)
Definition formArrayErrors (formArrayName : string)
  : M (list (Descriptor.Obj Js.value)) :=
  o ← gets errorObject;
  match Descriptor.read o formArrayName with
  | Some (Rows rows) => mret rows
  | _ => throw "formArrayErrors is not an array"
  end.

Definition store_formArrayErrors (formArrayName : string)
  (rows : list (Descriptor.Obj Js.value)) : M unit :=
  o ← gets errorObject;
  set_errorObject (Descriptor.update o formArrayName (Rows rows)).

(** [formArrayErrors.push({})]. *)
Definition formArrayErrors_push (formArrayName : string) : M unit :=
  rows ← formArrayErrors formArrayName;
  store_formArrayErrors formArrayName (rows ++ [Descriptor.empty])%list.

(** [Object.defineProperty(formArrayErrors[i], control, {value, writable:
    true})]. *)
Definition defineProperty_row (formArrayName : string) (i : nat)
  (control : string) (value : Js.value) : M unit :=
  rows ← formArrayErrors formArrayName;
  row ← require "Object.defineProperty called on non-object" (rows !! i);
  row' ← require "Cannot define property"
           (Descriptor.defineProperty row control value);
  store_formArrayErrors formArrayName (<[i := row']> rows).

(** Lines 127-132: the callback of the [forEach] over the controls of row
    [i]. *)
Definition findErrorsOnFormArrays_control
  (controls : list (string * AbstractControl)) (formArrayName : string)
  (i : nat) (control : string) : M unit :=
  c ← control_at controls control;
  if hasError c then
    setErrorMessage (errors (state c));;
    m ← gets message;
    defineProperty_row formArrayName i control m
  else mret tt.

(** Lines 123-134: the loop over [formArray.controls], from row [i] on. *)
Fixpoint findErrorsOnFormArrays_from (i : nat) (rows : list AbstractControl)
  (formArrayName : string) : M unit :=
  match rows with
  | [] => mret tt
  | formGroup :: rest =>
      let controls := controls_of formGroup in
      formArrayErrors_push formArrayName;;
      controls ← require "Cannot convert undefined or null to object" controls;
      forEach (fst <$> controls)
        (findErrorsOnFormArrays_control controls formArrayName i);;
      findErrorsOnFormArrays_from (S i) rest formArrayName
  end.

(** Lines 121-135.  [formArray] is the [controls] of the [FormArray]. *)
Definition findErrorsOnFormArrays (formArray : list AbstractControl)
  (formArrayName : string) : M unit :=
  findErrorsOnFormArrays_from 0 formArray formArrayName.

(** Lines 110-118: the callback of the [forEach] in [findErrors]. *)
Definition findErrors_control (controls : list (string * AbstractControl))
  (control : string) : M unit :=
  match own_get control controls with
  | Some (FormArray _ rows) =>
      defineProperty_errorObject control (Rows []);;
      findErrorsOnFormArrays rows control
  | Some (FormControl _) => findErrorsOnFormControls controls control
  | _ => mret tt
  end.

(** Lines 109-119. *)
Definition findErrors (controls : list (string * AbstractControl)) : M unit :=
  forEach (fst <$> controls) (findErrors_control controls).

(** Lines 56-60: what the subscription of [handleErrors] runs on a value
    change.  The debounce and the duplicate filter decide when it runs, not
    what it does. *)
Definition onValueChanges (form : AbstractControl) : M unit :=
  if invalid form then
    controls ← require "Cannot convert undefined or null to object"
                 (controls_of form);
    findErrors controls
  else mret tt.

(** Lines 50-52: the assignments of [handleErrors]. *)
Definition handleErrors (form : AbstractControl)
  (errorObject : Descriptor.Obj Slot) : M unit :=
  set_form form;;
  set_errorObject errorObject.

(** Lines 89-100: the callback of the [forEach] in
    [setErrorsToNestedFields]. *)
Definition setErrorsToNestedFields_field (nestedFieldName : string)
  (nestedFormErrors : Js.value) (field : string) : M unit :=
  formControl ← form_get field;
  match formControl with
  | Some formControl =>
      m ← prop nestedFormErrors field;
      ref_setErrors formControl [("serverError", m)]
  | None =>
      nestedForm ← form_get nestedFieldName;
      nestedForm ← require "Cannot read properties of null (reading 'get')"
                     nestedForm;
      nestedField ← ref_get nestedForm field;
      match nestedField with
      | Some nestedField =>
          m ← prop nestedFormErrors field;
          ref_setErrors nestedField [("serverError", m)]
      | None => mret tt
      end
  end.

(** Lines 87-101. *)
Definition setErrorsToNestedFields (nestedFieldName : string) : M unit :=
  payload ← gets serverError;
  nestedFormErrors ← prop payload nestedFieldName;
  keys ← Object_keys nestedFormErrors;
  forEach keys (setErrorsToNestedFields_field nestedFieldName nestedFormErrors).

(** Lines 74-79: the callback of the [forEach] in [setErrorToFormFields]. *)
Definition setErrorToFormFields_field (field : string) : M unit :=
  payload ← gets serverError;
  value ← prop payload field;
  if negb (Js.isArray value) then
    setErrorsToNestedFields field
  else
    let errorMessages := value in
    control ← form_get field;
    match control with
    | Some control =>
        first ← prop errorMessages "0";
        ref_setErrors control [("serverError", first)]
    | None => mret tt
    end.

(** Lines 72-81. *)
Definition setErrorToFormFields : M unit :=
  payload ← gets serverError;
  keys ← Object_keys payload;
  forEach keys setErrorToFormFields_field.

(** Lines 30-42. *)
Definition organizeServerErrors (serverError : Js.value)
  (form : AbstractControl) : M unit :=
  if Js.truthy serverError then
    set_form form;;
    set_serverError serverError;;
    let isErrorAnObject := negb (Js.isArray serverError) in
    if isErrorAnObject then
      setErrorToFormFields
    else
      signal (alert "No object this time, look console");;
      signal (console_log serverError)
  else mret tt.

(** Lines 66-69.  Each of the two calls is made through [?.], so it is
    skipped while [this.form] is undefined. *)
Definition invalidFormHasSubmit : M unit :=
  f ← gets form;
  match f with
  | Some f => set_form (markAllAsTouched f)
  | None => mret tt
  end;;
  f ← gets form;
  match f with
  | Some f => set_form (setErrors [] f)
  | None => mret tt
  end.

End ErrorHandler.

Import Forms ErrorHandler.

(** ** The message formatter, as the specification words it

    Section 4.4: a failure-kind set is checked in a fixed priority order and
    the first kind present decides the message.  A kind is present when its
    entry is truthy, which is also what [AbstractControl.hasError] of the
    library means by it. *)

Definition hasKind (errs : ValidationErrors) (kind : string) : bool :=
  Js.truthy (default Js.Undefined (own_get kind errs)).

Definition priority : list string :=
  ["maxlength"; "email"; "required"; "min"; "max"; "pattern"; "serverError"].

(** The parameter [name] that the kind [kind] carries. *)
Definition parameter (errs : ValidationErrors) (kind name : string) : Js.value :=
  default Js.Undefined (own_get kind errs ≫= λ p, Js.get p name).

(** The message of each kind of the table. *)
Definition template (errs : ValidationErrors) (kind : string) : Js.value :=
  if decide (kind = "maxlength") then
    Js.Str ("Gjatësia maksimale e lejuar "
            +:+ Js.ToString (parameter errs kind "actualLength") +:+ "/"
            +:+ Js.ToString (parameter errs kind "requiredLength"))
  else if decide (kind = "email") then Js.Str "Email nuk është i saktë"
  else if decide (kind = "required") then Js.Str "Fushë e detyrueshme"
  else if decide (kind = "min") then
    Js.Str ("Vlera minimale është "
            +:+ Js.ToString (parameter errs kind "min")
            +:+ ", vlera aktuale "
            +:+ Js.ToString (parameter errs kind "actual"))
  else if decide (kind = "max") then
    Js.Str ("Vlera maksimale është "
            +:+ Js.ToString (parameter errs kind "max")
            +:+ ", vlera aktuale "
            +:+ Js.ToString (parameter errs kind "actual"))
  else if decide (kind = "pattern") then Js.Str "Vlera e dhënë nuk është e saktë"
  else if decide (kind = "serverError") then
    default Js.Undefined (own_get kind errs)
  else Js.Str "".

Definition formatMessage (errs : ValidationErrors) : Js.value :=
  match find (hasKind errs) priority with
  | Some kind => template errs kind
  | None => Js.Str ""
  end.

(** ** What a scan computes

    The accumulator and the message that [findErrors] leaves when it
    completes, as functions of the controls it walks. *)


(** The entry of one member of a row. *)
Definition row_write (members : list (string * AbstractControl))
  (row : Descriptor.Obj Js.value) (control : string) : Descriptor.Obj Js.value :=
  match own_get control members with
  | Some c =>
      if hasError c then
        match errors (state c) with
        | Some errs => Descriptor.write row control (formatMessage errs)
        | None => row
        end
      else row
  | None => row
  end.

(** The object of one row. *)
Definition row_errors (row : AbstractControl) : Descriptor.Obj Js.value :=
  let members := default [] (controls_of row) in
  foldl (row_write members) Descriptor.empty (fst <$> members).

(** The message a control in error leaves in [this.message]. *)
Definition message_write (members : list (string * AbstractControl))
  (m : Js.value) (control : string) : Js.value :=
  match own_get control members with
  | Some c =>
      if hasError c then
        match errors (state c) with
        | Some errs => formatMessage errs
        | None => m
        end
      else m
  | None => m
  end.

Definition row_message (m : Js.value) (row : AbstractControl) : Js.value :=
  let members := default [] (controls_of row) in
  foldl (message_write members) m (fst <$> members).

(** What the scan stores under the name of a child of the root, if
    anything. *)
Definition scan_slot (c : AbstractControl) : option Slot :=
  match c with
  | FormControl _ =>
      if hasError c then (λ errs, Plain (formatMessage errs)) <$> errors (state c)
      else None
  | FormGroup _ _ => None
  | FormArray _ rows => Some (Rows (row_errors <$> rows))
  end.

Definition scan_write (controls : list (string * AbstractControl))
  (o : Descriptor.Obj Slot) (control : string) : Descriptor.Obj Slot :=
  match own_get control controls ≫= scan_slot with
  | Some v => Descriptor.write o control v
  | None => o
  end.

Definition scan_message (controls : list (string * AbstractControl))
  (m : Js.value) (control : string) : Js.value :=
  match own_get control controls with
  | Some (FormArray _ rows) => foldl row_message m rows
  | Some (FormControl _) => message_write controls m control
  | _ => m
  end.

(** The state after a completed scan. *)
Definition scanned (controls : list (string * AbstractControl)) (s : State)
  : State :=
  with_message (foldl (scan_message controls) (message s) (fst <$> controls))
    (with_errorObject
       (foldl (scan_write controls) (errorObject s) (fst <$> controls)) s).

(** The conditions under which a scan meets no [null] and no [undefined]:
    a member in error has a failure-kind set, as the library guarantees of
    a [FormControl], and every row of an array has [controls]. *)
Definition member_ok (c : AbstractControl) : bool :=
  implb (hasError c) (bool_decide (is_Some (errors (state c)))).

Definition row_ok (row : AbstractControl) : bool :=
  match controls_of row with
  | Some members =>
      forallb (λ k, from_option member_ok false (own_get k members))
              (fst <$> members)
  | None => false
  end.

Definition control_ok (c : AbstractControl) : bool :=
  match c with
  | FormControl _ => member_ok c
  | FormGroup _ _ => true
  | FormArray _ rows => forallb row_ok rows
  end.



(** Whether the step of the scan at [control] completes from the
    accumulator [o], and whether the whole walk over [keys] does. *)
Definition step_ok (controls : list (string * AbstractControl))
  (o : Descriptor.Obj Slot) (control : string) : bool :=
  match own_get control controls with
  | Some c =>
      control_ok c
      && match scan_slot c with
         | Some _ => Descriptor.accepts o control
         | None => true
         end
  | None => true
  end.

Fixpoint completes (controls : list (string * AbstractControl))
  (keys : list string) (o : Descriptor.Obj Slot) : bool :=
  match keys with
  | [] => true
  | k :: rest =>
      step_ok controls o k && completes controls rest (scan_write controls o k)
  end.

(** A property the definition has already produced: defining it again with
    the same value changes nothing. *)
Definition settled {V : Type} (o : Descriptor.Obj V) (k : string) (v : V)
  : Prop :=
  ∃ p, Descriptor.properties o !! k = Some p
       ∧ Descriptor.value p = v ∧ Descriptor.writable p = true.

(** An effect on [this.message] that either leaves it or overwrites it. *)
Definition steady (g : Js.value → Js.value) : Prop :=
  (∀ m, g m = m) ∨ (∃ v, ∀ m, g m = v).

(** A computation that leaves the property [k] of the accumulator as it
    found it, however it ends. *)
Definition preserves {A : Type} (k : string) (m : M A) : Prop :=
  ∀ s, Descriptor.properties (errorObject (final (m s))) !! k
       = Descriptor.properties (errorObject s) !! k.

(** ** How a scan ends

    The outcome of a scan in full, also on a form it cannot walk to the
    end: where it stops, and what the accumulator and [this.message] hold
    then. *)

(** The members of a row that the inner [forEach] gets through, and the
    exception it stops with, if it stops. *)
Fixpoint row_walked (members : list (string * AbstractControl))
  (keys : list string) : list string :=
  match keys with
  | [] => []
  | k :: rest =>
      match own_get k members with
      | Some c => if member_ok c then k :: row_walked members rest else []
      | None => []
      end
  end.

Fixpoint row_stop (members : list (string * AbstractControl))
  (keys : list string) : option Exception :=
  match keys with
  | [] => None
  | k :: rest =>
      match own_get k members with
      | Some c =>
          if member_ok c then row_stop members rest
          else Some (TypeError "Cannot read properties of undefined or null")
      | None => Some (TypeError "Cannot read properties of undefined")
      end
  end.

(** The same for the loop over the rows: the objects it has pushed when it
    ends, the exception it stops with, and the message it leaves. *)
Fixpoint rows_pushed (rows : list AbstractControl)
  : list (Descriptor.Obj Js.value) :=
  match rows with
  | [] => []
  | row :: rest =>
      match controls_of row with
      | Some members =>
          let keys := fst <$> members in
          let object :=
            foldl (row_write members) Descriptor.empty (row_walked members keys)
          in
          match row_stop members keys with
          | Some _ => [object]
          | None => object :: rows_pushed rest
          end
      | None => [Descriptor.empty]
      end
  end.

Fixpoint rows_stop (rows : list AbstractControl) : option Exception :=
  match rows with
  | [] => None
  | row :: rest =>
      match controls_of row with
      | Some members =>
          match row_stop members (fst <$> members) with
          | Some e => Some e
          | None => rows_stop rest
          end
      | None => Some (TypeError "Cannot convert undefined or null to object")
      end
  end.

Fixpoint rows_message (rows : list AbstractControl) (m : Js.value) : Js.value :=
  match rows with
  | [] => m
  | row :: rest =>
      match controls_of row with
      | Some members =>
          let keys := fst <$> members in
          let m' := foldl (message_write members) m (row_walked members keys) in
          match row_stop members keys with
          | Some _ => m'
          | None => rows_message rest m'
          end
      | None => m
      end
  end.

(** What the step at a child of the root does, apart from the accumulator
    it meets: the value it defines under the child's name, if it defines
    one; the exception it stops with after that, if any; what it makes of
    [this.message], when the definition is accepted and when it is
    rejected. *)
Record Profile : Type := mkProfile {
  stores : option Slot;
  stops : option Exception;
  leaves : Js.value → Js.value;
  leaves_rejected : Js.value → Js.value
}.

Definition profile (controls : list (string * AbstractControl))
  (control : string) : Profile :=
  match own_get control controls with
  | Some (FormArray _ rows) =>
      mkProfile (Some (Rows (rows_pushed rows))) (rows_stop rows)
                (rows_message rows) id
  | Some (FormControl st) =>
      if hasError (FormControl st) then
        match errors st with
        | Some errs =>
            mkProfile (Some (Plain (formatMessage errs))) None
                      (λ _, formatMessage errs) (λ _, formatMessage errs)
        | None =>
            mkProfile None
              (Some (TypeError "Cannot read properties of undefined or null"))
              id id
        end
      else mkProfile None None id id
  | _ => mkProfile None None id id
  end.

(** How the step ends on the accumulator [o] and the message [m]. *)
Definition step_end (p : Profile) (control : string)
  (o : Descriptor.Obj Slot) (m : Js.value)
  : option Exception * Descriptor.Obj Slot * Js.value :=
  match stores p with
  | Some v =>
      if Descriptor.accepts o control
      then (stops p, Descriptor.write o control v, leaves p m)
      else (Some (TypeError "Cannot define property"), o, leaves_rejected p m)
  | None => (stops p, o, leaves p m)
  end.

Fixpoint walk_end (controls : list (string * AbstractControl))
  (keys : list string) (o : Descriptor.Obj Slot) (m : Js.value)
  : option Exception * Descriptor.Obj Slot * Js.value :=
  match keys with
  | [] => (None, o, m)
  | k :: rest =>
      match step_end (profile controls k) k o m with
      | (None, o', m') => walk_end controls rest o' m'
      | stopped => stopped
      end
  end.

(** The outcome with that end. *)
Definition ended (e : option Exception) (o : Descriptor.Obj Slot)
  (m : Js.value) (s : State) : Outcome unit :=
  let s' := with_message m (with_errorObject o s) in
  match e with
  | None => Normal tt s'
  | Some e => Thrown e s'
  end.
Arguments ended : simpl never.

(** [o'] is [o] after some steps of a scan of [controls]: a property that
    differs is one that its step has defined, on an accumulator that
    accepted it. *)
Definition scanned_from (controls : list (string * AbstractControl))
  (o o' : Descriptor.Obj Slot) : Prop :=
  Descriptor.extensible o' = Descriptor.extensible o
  ∧ ∀ k, Descriptor.properties o' !! k = Descriptor.properties o !! k
         ∨ ∃ v, stores (profile controls k) = Some v
                ∧ settled o' k v
                ∧ Descriptor.accepts o k = true.

(** A computation that leaves the accumulator, [this.message] and the
    signals as it found them, however it ends. *)
Definition leaves_scan_state {A : Type} (m : M A) : Prop :=
  ∀ s, errorObject (final (m s)) = errorObject s
       ∧ message (final (m s)) = message s
       ∧ signals (final (m s)) = signals s.

(** ** Predicates of the specification *)

(** The control carries the synthetic server-error kind with the message
    [m], and nothing else. *)
Definition carries (c : option AbstractControl) (m : Js.value) : Prop :=
  ∃ target, c = Some target
            ∧ errors (state target) = Some [("serverError", m)].




(** ** Forms and payloads of the examples *)

Module Example.

Definition untouched : ControlState := mkState VALID None false false.

Definition field : AbstractControl := FormControl untouched.

(** A form with the field [email] and the group [address] holding [city]. *)
Definition signup : AbstractControl :=
  FormGroup untouched
    [("email", field); ("address", FormGroup untouched [("city", field)])].

(** A form with the field [email] alone. *)
Definition login : AbstractControl := FormGroup untouched [("email", field)].

(** The service before any call, with an empty accumulator. *)
Definition idle : State :=
  mkHandler None Js.Undefined Descriptor.empty Js.Undefined [].

(** [{"email": ["Email taken", "Try another"]}] *)
Definition email_taken : Js.value :=
  Js.Object [("email", Js.Array [Js.Str "Email taken"; Js.Str "Try another"])].

(** [{"address": {"city": "Required"}}] *)
Definition city_required : Js.value :=
  Js.Object [("address", Js.Object [("city", Js.Str "Required")])].

(** A touched field below its minimum: [{min: {min: 5, actual: 2}}]. *)
Definition below_minimum : ControlState :=
  mkState INVALID
    (Some [("min", Js.Object [("min", Js.Number 5); ("actual", Js.Number 2)])])
    true true.

(** A touched field left empty: [{required: true}]. *)
Definition missing : ControlState :=
  mkState INVALID (Some [("required", Js.Bool true)]) false true.

Definition in_error : ControlState := mkState INVALID None true true.

Definition rows : list AbstractControl :=
  [FormGroup in_error [("qty", FormControl below_minimum); ("sku", field)];
   FormGroup untouched [("qty", field); ("sku", field)];
   FormGroup in_error [("qty", field); ("sku", FormControl missing)]].

Definition shipping : list (string * AbstractControl) :=
  [("street", FormControl missing)].

(** The controls of an order form: two fields, a group and an array of
    three rows. *)
Definition order : list (string * AbstractControl) :=
  [("customer", FormControl missing);
   ("note", field);
   ("shipping", FormGroup in_error shipping);
   ("items", FormArray in_error rows)].

End Example.

(** * Properties

    First the lemmas on the layers, then the properties that the
    specification states of the service. *)

(** ** The monad and the formatter *)

Lemma bind_run {A B : Type} (m : M A) (f : A → M B) (s : State) :
  (m ≫= f) s = match m s with
               | Normal a s' => f a s'
               | Thrown e s' => Thrown e s'
               end.
Proof. reflexivity. Qed.

Lemma truthy_get (v : Js.value) (k : string) :
  Js.truthy v = true → ∃ w, Js.get v k = Some w.
Proof. destruct v; simpl; try discriminate; eauto. Qed.

Lemma prop_errors (errs : ValidationErrors) (kind : string) (s : State) :
  prop (Js.Object errs) kind s = Normal (default Js.Undefined (own_get kind errs)) s.
Proof. reflexivity. Qed.

Lemma prop_parameter (errs : ValidationErrors) (kind name : string) (s : State) :
  hasKind errs kind = true →
  prop (default Js.Undefined (own_get kind errs)) name s
  = Normal (parameter errs kind name) s.
Proof.
  unfold hasKind, parameter, prop. intros H.
  destruct (own_get kind errs) as [p|]; simpl in *; [|discriminate].
  destruct (truthy_get p name H) as [w ->]. reflexivity.
Qed.

Lemma setErrorMessage_formatMessage (errs : ValidationErrors) (s : State) :
  setErrorMessage (Some errs) s = Normal tt (with_message (formatMessage errs) s).
Proof.
  unfold setErrorMessage, formatMessage, priority. simpl find.
  rewrite bind_run, prop_errors. fold (hasKind errs "maxlength").
  destruct (hasKind errs "maxlength") eqn:H1.
  { rewrite bind_run, prop_parameter, bind_run, prop_parameter by done. reflexivity. }
  rewrite bind_run, prop_errors. fold (hasKind errs "email").
  destruct (hasKind errs "email") eqn:H2; [reflexivity|].
  rewrite bind_run, prop_errors. fold (hasKind errs "required").
  destruct (hasKind errs "required") eqn:H3; [reflexivity|].
  rewrite bind_run, prop_errors. fold (hasKind errs "min").
  destruct (hasKind errs "min") eqn:H4.
  { rewrite bind_run, prop_parameter, bind_run, prop_parameter by done. reflexivity. }
  rewrite bind_run, prop_errors. fold (hasKind errs "max").
  destruct (hasKind errs "max") eqn:H5.
  { rewrite bind_run, prop_parameter, bind_run, prop_parameter by done. reflexivity. }
  rewrite bind_run, prop_errors. fold (hasKind errs "pattern").
  destruct (hasKind errs "pattern") eqn:H6; [reflexivity|].
  rewrite bind_run, prop_errors. fold (hasKind errs "serverError").
  destruct (hasKind errs "serverError") eqn:H7; reflexivity.
Qed.

(** ** Association lists and array indices *)

Lemma own_get_own_set_eq {A : Type} (k : string) (x : A) (l : list (string * A)) :
  is_Some (own_get k l) → own_get k (own_set k x l) = Some x.
Proof.
  induction l as [|[k' y] l IH]; simpl; intros [z Hz]; [discriminate|].
  destruct (decide (k' = k)) as [->|Hne]; simpl.
  - by rewrite decide_True.
  - rewrite decide_False by done. apply IH. eauto.
Qed.

Lemma own_get_own_set_ne {A : Type} (k k' : string) (x : A)
  (l : list (string * A)) :
  k ≠ k' → own_get k' (own_set k x l) = own_get k' l.
Proof.
  intros Hne. induction l as [|[k0 y] l IH]; simpl; [done|].
  destruct (decide (k0 = k)) as [->|Hk]; simpl.
  - by rewrite !decide_False.
  - destruct (decide (k0 = k')); [done|apply IH].
Qed.

Lemma own_set_keys {A : Type} (k : string) (x : A) (l : list (string * A)) :
  fst <$> own_set k x l = fst <$> l.
Proof.
  induction l as [|[k' y] l IH]; csimpl; [done|].
  destruct (decide (k' = k)); csimpl; [done|by rewrite IH].
Qed.

Lemma own_get_elem {A : Type} (k : string) (x : A) (l : list (string * A)) :
  own_get k l = Some x → k ∈ fst <$> l.
Proof.
  induction l as [|[k' y] l IH]; csimpl; [discriminate|].
  destruct (decide (k' = k)) as [->|]; intros H.
  - apply list_elem_of_here.
  - apply list_elem_of_further, IH, H.
Qed.

Lemma index_of_lt (name : string) (n i : nat) :
  index_of name n = Some i → i < n.
Proof.
  unfold index_of, index_keys. intros H.
  destruct (list_find _ _) as [[j k]|] eqn:Hf; simplify_eq/=.
  apply list_find_Some in Hf as (Hj & _ & _).
  apply lookup_lt_Some in Hj. by rewrite length_fmap, length_seq in Hj.
Qed.

(** ** Paths through a form *)

Lemma state_with_state (st : ControlState) (c : AbstractControl) :
  state (with_state st c) = st.
Proof. by destruct c. Qed.

Lemma find_child_with_state (st : ControlState) (c : AbstractControl)
  (name : string) :
  find_child (with_state st c) name = find_child c name.
Proof. by destruct c. Qed.

Lemma find_child_updateControlsErrors (c : AbstractControl) (name : string) :
  find_child (updateControlsErrors c) name = find_child c name.
Proof. apply find_child_with_state. Qed.

Lemma errors_setErrors (errs : ValidationErrors) (c : AbstractControl) :
  errors (state (setErrors errs c)) = Some errs.
Proof.
  unfold setErrors, updateControlsErrors.
  by rewrite !state_with_state.
Qed.

Lemma find_child_replace (c child child' : AbstractControl) (name : string) :
  find_child c name = Some child →
  find_child (replace_child c name child') name = Some child'.
Proof.
  destruct c as [st|st cs|st cs]; simpl; [discriminate| |].
  - intros H. apply own_get_own_set_eq. eauto.
  - destruct (index_of name (length cs)) as [i|] eqn:Hi; simpl; [|discriminate].
    intros _. rewrite length_insert, Hi. simpl.
    apply list_lookup_insert_eq. by apply index_of_lt in Hi.
Qed.

Lemma find_update_path (path : list string)
  (f : AbstractControl → AbstractControl) (c target : AbstractControl) :
  find_path path c = Some target →
  ∃ c', update_path path f c = Some c' ∧ find_path path c' = Some (f target).
Proof.
  revert c. induction path as [|name rest IH]; simpl; intros c H.
  - simplify_eq. eauto.
  - destruct (find_child c name) as [child|] eqn:Hc; simpl in *; [|discriminate].
    destruct (IH _ H) as (child' & -> & Hf). simpl.
    eexists; split; [done|].
    rewrite find_child_updateControlsErrors.
    by rewrite (find_child_replace _ _ _ _ Hc).
Qed.

Lemma update_path_None (path : list string)
  (f : AbstractControl → AbstractControl) (c : AbstractControl) :
  find_path path c = None → update_path path f c = None.
Proof.
  revert c. induction path as [|name rest IH]; simpl; intros c H; [discriminate|].
  destruct (find_child c name) as [child|]; simpl in *; [|done].
  by rewrite (IH _ H).
Qed.

Lemma find_path_app (p q : list string) (c : AbstractControl) :
  find_path (p ++ q) c = find_path p c ≫= find_path q.
Proof.
  revert c. induction p as [|name rest IH]; simpl; intros c; [done|].
  destruct (find_child c name); simpl; [apply IH|done].
Qed.

Lemma split_path_cons (path : string) :
  ∃ seg segs, split_path path = seg :: segs.
Proof.
  induction path as [|ch rest (seg & segs & IH)]; simpl; [eauto|].
  destruct (decide (ch = "."%char)); [eauto|]. rewrite IH. eauto.
Qed.

Lemma get_find_path (c : AbstractControl) (path : string) :
  get c path = find_path (split_path path) c.
Proof.
  unfold get. by destruct (split_path_cons path) as (seg & segs & ->).
Qed.

(** ** The server-error mapper *)

Lemma form_get_run (path : string) (s : State) (f : AbstractControl) :
  form s = Some f →
  form_get path s
  = Normal (match get f path with
            | Some _ => Some (split_path path)
            | None => None
            end) s.
Proof. intros H. unfold form_get. rewrite bind_run. simpl. by rewrite H. Qed.

Lemma ref_get_run (r : Ref) (path : string) (s : State) (f : AbstractControl) :
  form s = Some f →
  ref_get r path s
  = Normal (match find_path r f ≫= λ c, get c path with
            | Some _ => Some (r ++ split_path path)%list
            | None => None
            end) s.
Proof. intros H. unfold ref_get. rewrite bind_run. simpl. by rewrite H. Qed.

Lemma ref_setErrors_run (r : Ref) (errs : ValidationErrors) (s : State)
  (f f' : AbstractControl) :
  form s = Some f →
  update_path r (setErrors errs) f = Some f' →
  ref_setErrors r errs s = Normal tt (with_form f' s).
Proof.
  intros H H'. unfold ref_setErrors. rewrite bind_run. simpl. rewrite H.
  rewrite bind_run. simpl. rewrite bind_run, H'. reflexivity.
Qed.

Lemma prop_run (v w : Js.value) (k : string) (s : State) :
  Js.get v k = Some w → prop v k s = Normal w s.
Proof. intros H. unfold prop. by rewrite H. Qed.

(** A control found at a path takes the failure kind, and is found there
    again with it. *)
Lemma attach_at_path (path : list string) (errs : ValidationErrors)
  (s : State) (f target : AbstractControl) :
  form s = Some f →
  find_path path f = Some target →
  ∃ f', ref_setErrors path errs s = Normal tt (with_form f' s)
        ∧ update_path path (setErrors errs) f = Some f'
        ∧ find_path path f' = Some (setErrors errs target).
Proof.
  intros Hf Ht.
  destruct (find_update_path path (setErrors errs) f target Ht) as (f' & Hu & Hg).
  exists f'. split_and!; [|done..]. by apply ref_setErrors_run with f.
Qed.

Lemma nested_field_flat (s : State) (f target : AbstractControl)
  (outer inner : string) (nested m : Js.value) :
  form s = Some f →
  Js.get nested inner = Some m →
  get f inner = Some target →
  ∃ f', setErrorsToNestedFields_field outer nested inner s
        = Normal tt (with_form f' s)
        ∧ update_path (split_path inner) (setErrors [("serverError", m)]) f
          = Some f'
        ∧ get f' inner = Some (setErrors [("serverError", m)] target).
Proof.
  intros Hf Hm Ht. unfold setErrorsToNestedFields_field.
  rewrite bind_run, (form_get_run _ _ _ Hf), Ht.
  rewrite bind_run, (prop_run _ _ _ _ Hm).
  rewrite get_find_path in Ht.
  destruct (attach_at_path _ [("serverError", m)] s f target Hf Ht)
    as (f' & Hr & Hu & Hg).
  exists f'. by rewrite get_find_path.
Qed.

Lemma nested_field_group (s : State) (f group target : AbstractControl)
  (outer inner : string) (nested m : Js.value) :
  form s = Some f →
  Js.get nested inner = Some m →
  get f inner = None →
  get f outer = Some group →
  get group inner = Some target →
  ∃ f', setErrorsToNestedFields_field outer nested inner s
        = Normal tt (with_form f' s)
        ∧ update_path (split_path outer ++ split_path inner)
            (setErrors [("serverError", m)]) f = Some f'
        ∧ (get f' outer ≫= λ g, get g inner)
          = Some (setErrors [("serverError", m)] target).
Proof.
  intros Hf Hm Hflat Hg Ht. unfold setErrorsToNestedFields_field.
  rewrite bind_run, (form_get_run _ _ _ Hf), Hflat.
  rewrite bind_run, (form_get_run _ _ _ Hf), Hg.
  rewrite bind_run. simpl.
  rewrite bind_run, (ref_get_run _ _ _ _ Hf).
  rewrite get_find_path in Hg. rewrite Hg. simpl. rewrite Ht.
  rewrite bind_run, (prop_run _ _ _ _ Hm).
  assert (find_path (split_path outer ++ split_path inner) f = Some target) as Hp.
  { rewrite find_path_app, Hg. simpl. by rewrite <- get_find_path. }
  destruct (attach_at_path _ [("serverError", m)] s f target Hf Hp)
    as (f' & Hr & Hu & Hfind).
  exists f'. split_and!; [done..|].
  rewrite find_path_app in Hfind. rewrite get_find_path.
  destruct (find_path (split_path outer) f') as [g|]; simpl in *; [|done].
  by rewrite get_find_path.
Qed.

(** The part of the lenient lookup that the code has: the outer key names a
    control, the inner key names nothing in it, and the entry is dropped. *)
Lemma nested_field_dropped (s : State) (f group : AbstractControl)
  (outer inner : string) (nested : Js.value) :
  form s = Some f →
  get f inner = None →
  get f outer = Some group →
  get group inner = None →
  setErrorsToNestedFields_field outer nested inner s = Normal tt s.
Proof.
  intros Hf Hflat Hg Ht. unfold setErrorsToNestedFields_field.
  rewrite bind_run, (form_get_run _ _ _ Hf), Hflat.
  rewrite bind_run, (form_get_run _ _ _ Hf), Hg.
  rewrite bind_run. simpl.
  rewrite bind_run, (ref_get_run _ _ _ _ Hf).
  rewrite get_find_path in Hg. rewrite Hg. simpl. by rewrite Ht.
Qed.

(** The part it lacks: the outer key names no control, and [null.get]
    throws. *)
Lemma nested_field_throws (s : State) (f : AbstractControl)
  (outer inner : string) (nested : Js.value) :
  form s = Some f →
  get f inner = None →
  get f outer = None →
  setErrorsToNestedFields_field outer nested inner s
  = Thrown (TypeError "Cannot read properties of null (reading 'get')") s.
Proof.
  intros Hf Hflat Hg. unfold setErrorsToNestedFields_field.
  rewrite bind_run, (form_get_run _ _ _ Hf), Hflat.
  rewrite bind_run, (form_get_run _ _ _ Hf), Hg.
  reflexivity.
Qed.

Lemma nested_dispatch (s : State) (outer : string)
  (props : list (string * Js.value)) :
  Js.get (serverError s) outer = Some (Js.Object props) →
  setErrorToFormFields_field outer s
  = forEach (fst <$> props)
      (setErrorsToNestedFields_field outer (Js.Object props)) s.
Proof.
  intros H. unfold setErrorToFormFields_field.
  rewrite bind_run. simpl. rewrite bind_run, (prop_run _ _ _ _ H). simpl.
  unfold setErrorsToNestedFields. rewrite bind_run. simpl.
  rewrite bind_run, (prop_run _ _ _ _ H). reflexivity.
Qed.

Lemma sequence_field (s : State) (f target : AbstractControl) (key : string)
  (first : Js.value) (rest : list Js.value) :
  form s = Some f →
  Js.get (serverError s) key = Some (Js.Array (first :: rest)) →
  get f key = Some target →
  ∃ f', setErrorToFormFields_field key s = Normal tt (with_form f' s)
        ∧ update_path (split_path key) (setErrors [("serverError", first)]) f
          = Some f'
        ∧ get f' key = Some (setErrors [("serverError", first)] target).
Proof.
  intros Hf Hv Ht. unfold setErrorToFormFields_field.
  rewrite bind_run. simpl. rewrite bind_run, (prop_run _ _ _ _ Hv). simpl.
  rewrite bind_run, (form_get_run _ _ _ Hf), Ht.
  rewrite bind_run. simpl.
  rewrite get_find_path in Ht.
  destruct (attach_at_path _ [("serverError", first)] s f target Hf Ht)
    as (f' & Hr & Hu & Hg).
  exists f'. by rewrite get_find_path.
Qed.

(** ** Objects and property definitions *)

Lemma defineProperty_accepted {V : Type} (o : Descriptor.Obj V) (k : string)
  (v : V) :
  Descriptor.accepts o k = true →
  Descriptor.defineProperty o k v = Some (Descriptor.write o k v).
Proof. unfold Descriptor.defineProperty. by intros ->. Qed.

Lemma defineProperty_rejected {V : Type} (o : Descriptor.Obj V) (k : string)
  (v : V) :
  Descriptor.accepts o k = false → Descriptor.defineProperty o k v = None.
Proof. unfold Descriptor.defineProperty. by intros ->. Qed.

Lemma accepts_write_eq {V : Type} (o : Descriptor.Obj V) (k : string) (v : V) :
  Descriptor.accepts (Descriptor.write o k v) k = true.
Proof.
  unfold Descriptor.accepts, Descriptor.write. simpl.
  rewrite lookup_insert_eq.
  destruct (Descriptor.properties o !! k); simpl; by rewrite ?orb_true_r.
Qed.

Lemma accepts_write_ne {V : Type} (o : Descriptor.Obj V) (k k' : string)
  (v : V) :
  k ≠ k' →
  Descriptor.accepts (Descriptor.write o k v) k' = Descriptor.accepts o k'.
Proof.
  intros Hne. unfold Descriptor.accepts, Descriptor.write. simpl.
  by rewrite lookup_insert_ne.
Qed.

Lemma accepts_write {V : Type} (o : Descriptor.Obj V) (k k' : string) (v : V) :
  Descriptor.accepts o k' = true →
  Descriptor.accepts (Descriptor.write o k v) k' = true.
Proof.
  intros H. destruct (decide (k = k')) as [->|Hne].
  - apply accepts_write_eq.
  - by rewrite accepts_write_ne.
Qed.

Lemma read_write_eq {V : Type} (o : Descriptor.Obj V) (k : string) (v : V) :
  Descriptor.read (Descriptor.write o k v) k = Some v.
Proof.
  unfold Descriptor.read, Descriptor.write. simpl. rewrite lookup_insert_eq.
  by destruct (Descriptor.properties o !! k).
Qed.

Lemma properties_write_ne {V : Type} (o : Descriptor.Obj V) (k k' : string)
  (v : V) :
  k ≠ k' →
  Descriptor.properties (Descriptor.write o k v) !! k'
  = Descriptor.properties o !! k'.
Proof. intros Hne. unfold Descriptor.write. simpl. by rewrite lookup_insert_ne. Qed.

Lemma properties_update_ne {V : Type} (o : Descriptor.Obj V) (k k' : string)
  (v : V) :
  k ≠ k' →
  Descriptor.properties (Descriptor.update o k v) !! k'
  = Descriptor.properties o !! k'.
Proof. intros Hne. unfold Descriptor.update. simpl. by rewrite lookup_alter_ne. Qed.

Lemma read_update_eq {V : Type} (o : Descriptor.Obj V) (k : string) (v w : V) :
  Descriptor.read o k = Some w →
  Descriptor.read (Descriptor.update o k v) k = Some v.
Proof.
  unfold Descriptor.read, Descriptor.update. simpl. rewrite lookup_alter_eq.
  by destruct (Descriptor.properties o !! k).
Qed.

Lemma update_update {V : Type} (o : Descriptor.Obj V) (k : string) (v w : V) :
  Descriptor.update (Descriptor.update o k v) k w = Descriptor.update o k w.
Proof.
  unfold Descriptor.update. simpl. f_equal.
  apply map_eq. intros j. destruct (decide (k = j)) as [->|Hne].
  - rewrite !lookup_alter_eq. by destruct (Descriptor.properties o !! j).
  - by rewrite !lookup_alter_ne.
Qed.

Lemma update_write {V : Type} (o : Descriptor.Obj V) (k : string) (v w : V) :
  Descriptor.update (Descriptor.write o k v) k w = Descriptor.write o k w.
Proof.
  unfold Descriptor.update, Descriptor.write. simpl. f_equal.
  apply map_eq. intros j. destruct (decide (k = j)) as [->|Hne].
  - rewrite lookup_alter_eq, !lookup_insert_eq.
    by destruct (Descriptor.properties o !! j).
  - by rewrite lookup_alter_ne, !lookup_insert_ne.
Qed.

Lemma update_same {V : Type} (o : Descriptor.Obj V) (k : string) (v : V) :
  Descriptor.read o k = Some v → Descriptor.update o k v = o.
Proof.
  unfold Descriptor.read, Descriptor.update. intros H.
  destruct o as [m e]. simpl in *. f_equal.
  apply map_eq. intros j. destruct (decide (k = j)) as [->|Hne].
  - rewrite lookup_alter_eq. destruct (m !! j) as [[]|]; by simplify_eq/=.
  - by rewrite lookup_alter_ne.
Qed.

Lemma settled_write_eq {V : Type} (o : Descriptor.Obj V) (k : string) (v : V) :
  settled (Descriptor.write o k v) k v.
Proof.
  unfold settled, Descriptor.write. simpl. rewrite lookup_insert_eq.
  eexists; split; [done|]. by destruct (Descriptor.properties o !! k).
Qed.

Lemma settled_write_ne {V : Type} (o : Descriptor.Obj V) (k k' : string)
  (v w : V) :
  k' ≠ k → settled o k v → settled (Descriptor.write o k' w) k v.
Proof.
  intros Hne (p & Hp & Hv). exists p. by rewrite properties_write_ne.
Qed.

Lemma write_settled {V : Type} (o : Descriptor.Obj V) (k : string) (v : V) :
  settled o k v → Descriptor.write o k v = o.
Proof.
  intros (p & Hp & Hv & Hw). destruct o as [m e].
  unfold Descriptor.write. simpl in *. f_equal.
  rewrite Hp. simpl. apply insert_id. rewrite Hp. f_equal.
  destruct p; by simplify_eq/=.
Qed.

Lemma accepts_settled {V : Type} (o : Descriptor.Obj V) (k : string) (v : V) :
  settled o k v → Descriptor.accepts o k = true.
Proof.
  intros (p & Hp & Hv & Hw). unfold Descriptor.accepts.
  by rewrite Hp, Hw, orb_true_r.
Qed.

(** ** The scanner: one row of an array *)

Lemma state_restored (s : State) :
  with_message (message s) (with_errorObject (errorObject s) s) = s.
Proof. by destruct s. Qed.

Lemma ended_restored (e : option Exception) (s : State) :
  ended e (errorObject s) (message s) s
  = match e with None => Normal tt s | Some e => Thrown e s end.
Proof. unfold ended. by rewrite state_restored. Qed.

Lemma member_ok_errors (c : AbstractControl) :
  member_ok c = true → hasError c = true → is_Some (errors (state c)).
Proof.
  unfold member_ok. intros H He. rewrite He in H. simpl in H.
  by apply bool_decide_eq_true in H.
Qed.

Lemma row_write_accepts (members : list (string * AbstractControl))
  (row : Descriptor.Obj Js.value) (control : string) :
  (∀ k, Descriptor.accepts row k = true) →
  ∀ k, Descriptor.accepts (row_write members row control) k = true.
Proof.
  intros H k. unfold row_write.
  destruct (own_get control members) as [c|]; [|done].
  destruct (hasError c); [|done].
  destruct (errors (state c)); [|done].
  by apply accepts_write.
Qed.

(** The callback on one member: the entry and the message of a member in
    error, nothing for another, and an exception at a member in error that
    has no failure-kind set. *)
Lemma member_run (members : list (string * AbstractControl))
  (name control : string) (i : nat) (s : State)
  (cur : list (Descriptor.Obj Js.value)) (row : Descriptor.Obj Js.value) :
  Descriptor.read (errorObject s) name = Some (Rows cur) →
  cur !! i = Some row →
  Descriptor.accepts row control = true →
  findErrorsOnFormArrays_control members name i control s
  = match own_get control members with
    | Some c =>
        if member_ok c then
          Normal tt
            (with_message (message_write members (message s) control)
               (with_errorObject
                  (Descriptor.update (errorObject s) name
                     (Rows (<[i := row_write members row control]> cur))) s))
        else Thrown (TypeError "Cannot read properties of undefined or null") s
    | None => Thrown (TypeError "Cannot read properties of undefined") s
    end.
Proof.
  intros Hread Hrow Hacc.
  unfold findErrorsOnFormArrays_control, control_at, message_write, row_write.
  rewrite bind_run.
  destruct (own_get control members) as [c|] eqn:Hc; simpl; [|done].
  destruct (member_ok c) eqn:Hok.
  - destruct (hasError c) eqn:He.
    + destruct (member_ok_errors c Hok He) as [errs Herrs]. rewrite Herrs.
      rewrite bind_run, setErrorMessage_formatMessage.
      rewrite bind_run. simpl.
      unfold defineProperty_row, formArrayErrors.
      rewrite !bind_run. simpl. rewrite Hread. simpl.
      rewrite bind_run, Hrow. simpl.
      rewrite bind_run, (defineProperty_accepted _ _ _ Hacc). reflexivity.
    + rewrite list_insert_id by done.
      rewrite update_same by done. by rewrite state_restored.
  - unfold member_ok in Hok. destruct (hasError c); [|done]. simpl in Hok.
    apply bool_decide_eq_false in Hok.
    destruct (errors (state c)); [by destruct Hok|done].
Qed.

Lemma row_run (members : list (string * AbstractControl)) (name : string)
  (i : nat) (keys : list string) :
  ∀ (s : State) (cur : list (Descriptor.Obj Js.value))
    (row : Descriptor.Obj Js.value),
  Descriptor.read (errorObject s) name = Some (Rows cur) →
  cur !! i = Some row →
  (∀ k, Descriptor.accepts row k = true) →
  forEach keys (findErrorsOnFormArrays_control members name i) s
  = ended (row_stop members keys)
      (Descriptor.update (errorObject s) name
         (Rows (<[i := foldl (row_write members) row (row_walked members keys)]>
                  cur)))
      (foldl (message_write members) (message s) (row_walked members keys)) s.
Proof.
  induction keys as [|k keys IH]; intros s cur row Hread Hrow Hacc; simpl.
  - rewrite list_insert_id, update_same by done. by rewrite ended_restored.
  - rewrite bind_run, (member_run _ _ _ _ _ cur row) by done.
    destruct (own_get k members) as [c|] eqn:Hc; simpl.
    + destruct (member_ok c) eqn:Hok; simpl.
      * rewrite (IH _ (<[i := row_write members row k]> cur)
                   (row_write members row k));
          [ | simpl; by eapply read_update_eq
            | apply list_lookup_insert_eq; by eapply lookup_lt_Some
            | by apply row_write_accepts ].
        simpl. by rewrite update_update, list_insert_insert_eq.
      * rewrite list_insert_id, update_same by done. by rewrite ended_restored.
    + rewrite list_insert_id, update_same by done. by rewrite ended_restored.
Qed.

(** ** The scanner: the rows of an array *)

Lemma accepts_empty {V : Type} (k : string) :
  Descriptor.accepts (@Descriptor.empty V) k = true.
Proof.
  unfold Descriptor.accepts, Descriptor.empty. simpl. by rewrite lookup_empty.
Qed.

Lemma push_run (name : string) (s : State)
  (cur : list (Descriptor.Obj Js.value)) :
  Descriptor.read (errorObject s) name = Some (Rows cur) →
  formArrayErrors_push name s
  = Normal tt
      (with_errorObject
         (Descriptor.update (errorObject s) name (Rows (cur ++ [Descriptor.empty])))
         s).
Proof.
  intros H. unfold formArrayErrors_push, formArrayErrors.
  rewrite !bind_run. simpl. by rewrite H.
Qed.

Lemma rows_run (name : string) (rows : list AbstractControl) :
  ∀ (s : State) (cur : list (Descriptor.Obj Js.value)),
  Descriptor.read (errorObject s) name = Some (Rows cur) →
  findErrorsOnFormArrays_from (length cur) rows name s
  = ended (rows_stop rows)
      (Descriptor.update (errorObject s) name (Rows (cur ++ rows_pushed rows)))
      (rows_message rows (message s)) s.
Proof.
  induction rows as [|row rest IH]; intros s cur Hread; simpl.
  - rewrite app_nil_r, update_same by done. by rewrite ended_restored.
  - rewrite bind_run, (push_run _ _ cur) by done.
    rewrite bind_run.
    destruct (controls_of row) as [members|] eqn:Hm; simpl; [|done].
    rewrite bind_run.
    rewrite (row_run members name (length cur) _ _ (cur ++ [Descriptor.empty])
               Descriptor.empty);
      [ | simpl; by eapply read_update_eq
        | by rewrite list_lookup_middle | intros k; apply accepts_empty ].
    simpl. rewrite update_update.
    rewrite insert_app_r_alt by done. rewrite Nat.sub_diag. simpl.
    destruct (row_stop members (fst <$> members)) as [e|] eqn:Hstop; simpl;
      [done|].
    set (object := foldl (row_write members) Descriptor.empty
                     (row_walked members (fst <$> members))).
    replace (S (length cur)) with (length (cur ++ [object]))
      by (rewrite length_app; simpl; lia).
    rewrite IH by (simpl; by eapply read_update_eq).
    simpl. by rewrite update_update, <- app_assoc.
Qed.

(** ** The scanner: one child of the root *)

Lemma define_run_ok (k : string) (v : Slot) (s : State) :
  Descriptor.accepts (errorObject s) k = true →
  defineProperty_errorObject k v s
  = Normal tt (with_errorObject (Descriptor.write (errorObject s) k v) s).
Proof.
  intros H. unfold defineProperty_errorObject.
  rewrite bind_run. simpl. by rewrite bind_run, defineProperty_accepted.
Qed.

Lemma define_run_bad (k : string) (v : Slot) (s : State) :
  Descriptor.accepts (errorObject s) k = false →
  defineProperty_errorObject k v s
  = Thrown (TypeError "Cannot define property") s.
Proof.
  intros H. unfold defineProperty_errorObject.
  rewrite bind_run. simpl. by rewrite bind_run, defineProperty_rejected.
Qed.

Lemma control_run (controls : list (string * AbstractControl)) (k : string)
  (s : State) :
  findErrors_control controls k s
  = let '(e, o, m) :=
      step_end (profile controls k) k (errorObject s) (message s) in
    ended e o m s.
Proof.
  unfold findErrors_control, profile, step_end.
  destruct (own_get k controls) as [[st|st members|st rows]|] eqn:Hc; simpl.
  - unfold findErrorsOnFormControls, control_at.
    rewrite bind_run, Hc. simpl.
    destruct (hasError (FormControl st)) eqn:He; simpl;
      [|by rewrite ended_restored].
    destruct (errors st) as [errs|] eqn:Herrs; simpl;
      [|by rewrite ended_restored].
    rewrite bind_run, setErrorMessage_formatMessage.
    unfold setErrorToErrorObject. rewrite bind_run. simpl.
    destruct (Descriptor.accepts (errorObject s) k) eqn:Hacc.
    + by rewrite define_run_ok.
    + by rewrite define_run_bad.
  - by rewrite ended_restored.
  - rewrite bind_run.
    destruct (Descriptor.accepts (errorObject s) k) eqn:Hacc.
    + rewrite define_run_ok by done. unfold findErrorsOnFormArrays.
      rewrite (rows_run k rows _ []) by apply read_write_eq.
      simpl. by rewrite update_write.
    + rewrite define_run_bad by done. by rewrite ended_restored.
  - by rewrite ended_restored.
Qed.

(** ** The scanner: the whole walk *)

Lemma walk_run (controls : list (string * AbstractControl)) (keys : list string) :
  ∀ s : State,
  forEach keys (findErrors_control controls) s
  = let '(e, o, m) := walk_end controls keys (errorObject s) (message s) in
    ended e o m s.
Proof.
  induction keys as [|k keys IH]; intros s; simpl.
  - by rewrite ended_restored.
  - rewrite bind_run, control_run.
    destruct (step_end (profile controls k) k (errorObject s) (message s))
      as [[[e|] o] m]; simpl; [done|].
    rewrite IH. simpl.
    by destruct (walk_end controls keys o m) as [[[e|] o'] m'].
Qed.

(** ** Completion of a scan *)

Lemma row_end_ok (members : list (string * AbstractControl))
  (keys : list string) :
  forallb (λ k, from_option member_ok false (own_get k members)) keys = true →
  row_stop members keys = None ∧ row_walked members keys = keys.
Proof.
  induction keys as [|k keys IH]; simpl; [done|].
  intros H. apply andb_true_iff in H as [Hk H].
  destruct (own_get k members) as [c|]; simpl in Hk; [|done].
  rewrite Hk. destruct (IH H) as [-> ->]. done.
Qed.

Lemma row_end_bad (members : list (string * AbstractControl))
  (keys : list string) :
  forallb (λ k, from_option member_ok false (own_get k members)) keys = false →
  is_Some (row_stop members keys).
Proof.
  induction keys as [|k keys IH]; simpl; [done|].
  destruct (own_get k members) as [c|]; simpl; [|eauto].
  destruct (member_ok c); simpl; eauto.
Qed.

Lemma rows_end_ok (rows : list AbstractControl) :
  forallb row_ok rows = true →
  rows_stop rows = None
  ∧ rows_pushed rows = row_errors <$> rows
  ∧ ∀ m, rows_message rows m = foldl row_message m rows.
Proof.
  induction rows as [|row rest IH]; [done|].
  intros H. simpl in H. apply andb_true_iff in H as [Hrow H].
  destruct (IH H) as (Hstop & Hpushed & Hm).
  unfold row_ok in Hrow.
  destruct (controls_of row) as [members|] eqn:Hmem; [|done].
  destruct (row_end_ok _ _ Hrow) as [Hrs Hrw].
  assert (row_errors row
          = foldl (row_write members) Descriptor.empty (fst <$> members))
    as Herr by (unfold row_errors; by rewrite Hmem).
  assert (∀ m, row_message m row
               = foldl (message_write members) m (fst <$> members))
    as Hmsg by (intros m; unfold row_message; by rewrite Hmem).
  cbn [rows_stop rows_pushed rows_message]. rewrite Hmem. cbn zeta.
  rewrite Hrs, Hrw. split_and!.
  - done.
  - by rewrite fmap_cons, Herr, Hpushed.
  - intros m. cbn [foldl]. rewrite Hmsg. apply Hm.
Qed.

Lemma rows_end_bad (rows : list AbstractControl) :
  forallb row_ok rows = false → is_Some (rows_stop rows).
Proof.
  induction rows as [|row rest IH]; simpl; [done|].
  unfold row_ok at 1.
  destruct (controls_of row) as [members|]; [|eauto].
  destruct (forallb _ (fst <$> members)) eqn:Hrow; simpl.
  - destruct (row_end_ok _ _ Hrow) as [-> _]. apply IH.
  - intros _. destruct (row_end_bad _ _ Hrow) as [e ->]. eauto.
Qed.

Lemma step_end_ok (controls : list (string * AbstractControl)) (k : string)
  (o : Descriptor.Obj Slot) (m : Js.value) :
  step_ok controls o k = true →
  step_end (profile controls k) k o m
  = (None, scan_write controls o k, scan_message controls m k).
Proof.
  unfold step_ok, step_end, profile, scan_write, scan_message, message_write.
  destruct (own_get k controls) as [[st|st members|st rows]|] eqn:Hc; simpl;
    try done.
  - intros H. apply andb_true_iff in H as [Hok Hacc].
    destruct (hasError (FormControl st)) eqn:He; [|done].
    destruct (member_ok_errors _ Hok He) as [errs Herrs].
    simpl in Herrs. rewrite Herrs in *. simpl in *. by rewrite Hacc.
  - intros H. apply andb_true_iff in H as [Hok ->].
    by destruct (rows_end_ok rows Hok) as (-> & -> & ->).
Qed.

Lemma step_end_bad (controls : list (string * AbstractControl)) (k : string)
  (o : Descriptor.Obj Slot) (m : Js.value) :
  step_ok controls o k = false →
  ∃ e o' m', step_end (profile controls k) k o m = (Some e, o', m').
Proof.
  unfold step_ok, step_end, profile.
  destruct (own_get k controls) as [[st|st members|st rows]|] eqn:Hc; simpl;
    try done.
  - unfold member_ok.
    destruct (hasError (FormControl st)) eqn:He; simpl; [|done].
    destruct (errors st) as [errs|]; simpl; [|eauto].
    intros ->. eauto.
  - destruct (Descriptor.accepts o k); [|eauto].
    rewrite andb_true_r. intros H.
    destruct (rows_end_bad rows H) as [e ->]. eauto.
Qed.

Lemma walk_end_ok (controls : list (string * AbstractControl))
  (keys : list string) :
  ∀ (o : Descriptor.Obj Slot) (m : Js.value),
  completes controls keys o = true →
  walk_end controls keys o m
  = (None, foldl (scan_write controls) o keys,
     foldl (scan_message controls) m keys).
Proof.
  induction keys as [|k keys IH]; intros o m H; simpl; [done|].
  simpl in H. apply andb_true_iff in H as [Hk H].
  rewrite step_end_ok by done. by apply IH.
Qed.

Lemma walk_end_bad (controls : list (string * AbstractControl))
  (keys : list string) :
  ∀ (o : Descriptor.Obj Slot) (m : Js.value),
  completes controls keys o = false →
  ∃ e o' m', walk_end controls keys o m = (Some e, o', m').
Proof.
  induction keys as [|k keys IH]; intros o m H; simpl in *; [done|].
  destruct (step_ok controls o k) eqn:Hk; simpl in H.
  - rewrite step_end_ok by done. by apply IH.
  - destruct (step_end_bad controls k o m Hk) as (e & o' & m' & ->). eauto.
Qed.

(** A scan completes exactly on the condition [completes], and then leaves
    the state [scanned]. *)
Lemma findErrors_completes (controls : list (string * AbstractControl))
  (s s' : State) :
  findErrors controls s = Normal tt s' ↔
  completes controls (fst <$> controls) (errorObject s) = true
  ∧ s' = scanned controls s.
Proof.
  unfold findErrors, scanned. rewrite walk_run.
  destruct (completes controls (fst <$> controls) (errorObject s)) eqn:Hc.
  - rewrite walk_end_ok by done. unfold ended. split.
    + intros [= <-]. done.
    + intros [_ ->]. done.
  - destruct (walk_end_bad controls _ _ (message s) Hc) as (e & o & m & ->).
    unfold ended. split; [done|]. by intros [? _].
Qed.




(** Outside these conditions the walk stops at the first [undefined] or
    [null] it meets: a row that is a [FormControl] has no [controls], and a
    group inside a row that is invalid through its members has no
    failure-kind set of its own. *)
Lemma row_without_controls_throws :
  ∃ s', findErrors
          [("tags", FormArray Example.in_error [FormControl Example.missing])]
          Example.idle
        = Thrown (TypeError "Cannot convert undefined or null to object") s'.
Proof. eexists. vm_compute. reflexivity. Qed.

Lemma group_inside_row_throws :
  ∃ s', findErrors
          [("items",
            FormArray Example.in_error
              [FormGroup Example.in_error
                 [("size", FormGroup Example.in_error Example.shipping)]])]
          Example.idle
        = Thrown (TypeError "Cannot read properties of undefined or null") s'.
Proof. eexists. vm_compute. reflexivity. Qed.

Lemma completes_control_ok (controls : list (string * AbstractControl))
  (keys : list string) :
  ∀ (o : Descriptor.Obj Slot) (k : string) (c : AbstractControl),
  completes controls keys o = true →
  k ∈ keys → own_get k controls = Some c → control_ok c = true.
Proof.
  induction keys as [|k0 keys IH]; intros o k c H Hk Hc; simpl in *.
  - by apply elem_of_nil in Hk.
  - apply andb_true_iff in H as [H0 H].
    apply elem_of_cons in Hk as [->|Hk]; [|by eapply IH].
    unfold step_ok in H0. rewrite Hc in H0.
    by apply andb_true_iff in H0 as [? _].
Qed.

(** ** What a completed scan leaves under a name *)

Lemma scan_write_settled (controls : list (string * AbstractControl))
  (o : Descriptor.Obj Slot) (k k' : string) (v : Slot) :
  own_get k controls ≫= scan_slot = Some v →
  settled o k v → settled (scan_write controls o k') k v.
Proof.
  intros Hv Hs. unfold scan_write.
  destruct (decide (k' = k)) as [->|Hne].
  - rewrite Hv. apply settled_write_eq.
  - destruct (own_get k' controls ≫= scan_slot); [|done].
    by apply settled_write_ne.
Qed.

Lemma scan_settled (controls : list (string * AbstractControl))
  (keys : list string) :
  ∀ (o : Descriptor.Obj Slot) (k : string) (v : Slot),
  own_get k controls ≫= scan_slot = Some v →
  k ∈ keys ∨ settled o k v →
  settled (foldl (scan_write controls) o keys) k v.
Proof.
  induction keys as [|k0 keys IH]; intros o k v Hv H; simpl.
  - destruct H as [H|H]; [by apply elem_of_nil in H|done].
  - apply IH; [done|].
    destruct H as [H|H].
    + apply elem_of_cons in H as [->|H]; [|by left].
      right. unfold scan_write. rewrite Hv. apply settled_write_eq.
    + right. by apply scan_write_settled.
Qed.

Lemma settled_read {V : Type} (o : Descriptor.Obj V) (k : string) (v : V) :
  settled o k v → Descriptor.read o k = Some v.
Proof. intros (p & Hp & <- & _). unfold Descriptor.read. by rewrite Hp. Qed.


(** ** A second scan *)

Lemma steady_foldl {A : Type} (f : Js.value → A → Js.value) (xs : list A) :
  (∀ x, steady (λ m, f m x)) → steady (λ m, foldl f m xs).
Proof.
  intros Hf. induction xs as [|x xs IH] using rev_ind.
  - by left.
  - destruct (Hf x) as [Hx|[v Hx]].
    + destruct IH as [IH|[w IH]]; [left|right; exists w];
        intros m; by rewrite foldl_app; simpl; rewrite Hx, IH.
    + right. exists v. intros m. by rewrite foldl_app; simpl; rewrite Hx.
Qed.

Lemma steady_message_write (members : list (string * AbstractControl))
  (control : string) :
  steady (λ m, message_write members m control).
Proof.
  unfold message_write. destruct (own_get control members) as [c|]; [|by left].
  destruct (hasError c); [|by left].
  destruct (errors (state c)) as [errs|]; [right; by eexists|by left].
Qed.

Lemma steady_compose (g h : Js.value → Js.value) :
  steady g → steady h → steady (λ m, h (g m)).
Proof.
  intros [Hg|[v Hg]] [Hh|[w Hh]].
  - left. intros m. by rewrite Hg, Hh.
  - right. exists w. intros m. by rewrite Hh.
  - right. exists v. intros m. by rewrite Hh, Hg.
  - right. exists w. intros m. by rewrite Hh.
Qed.

Lemma steady_rows_message (rows : list AbstractControl) :
  steady (rows_message rows).
Proof.
  induction rows as [|row rest IH]; simpl; [by left|].
  destruct (controls_of row) as [members|]; [|by left].
  pose proof (steady_foldl (message_write members)
                (row_walked members (fst <$> members))
                (steady_message_write members)) as Hrow.
  destruct (row_stop members (fst <$> members)); [done|].
  by apply (steady_compose _ (rows_message rest)).
Qed.

Lemma steady_profile (controls : list (string * AbstractControl)) (k : string) :
  steady (leaves (profile controls k))
  ∧ steady (leaves_rejected (profile controls k)).
Proof.
  unfold profile.
  destruct (own_get k controls) as [[st|st members|st rows]|]; simpl;
    try (split; by left).
  - destruct (hasError (FormControl st)); simpl; [|split; by left].
    destruct (errors st); simpl; split; try by left.
    all: right; by eexists.
  - split; [apply steady_rows_message|by left].
Qed.

Lemma steady_pair (g : Js.value → Js.value) (m m2 : Js.value) :
  steady g → g m2 = g m ∨ (g m2 = m2 ∧ g m = m).
Proof. intros [H|[v H]]; [right|left]; by rewrite !H. Qed.

Lemma accepts_same {V : Type} (o o' : Descriptor.Obj V) (k : string) :
  Descriptor.extensible o' = Descriptor.extensible o →
  Descriptor.properties o' !! k = Descriptor.properties o !! k →
  Descriptor.accepts o' k = Descriptor.accepts o k.
Proof. unfold Descriptor.accepts. by intros -> ->. Qed.

Lemma scanned_from_refl (controls : list (string * AbstractControl))
  (o : Descriptor.Obj Slot) :
  scanned_from controls o o.
Proof. split; [done|]. intros k. by left. Qed.

Lemma scanned_from_trans (controls : list (string * AbstractControl))
  (o1 o2 o3 : Descriptor.Obj Slot) :
  scanned_from controls o1 o2 → scanned_from controls o2 o3 →
  scanned_from controls o1 o3.
Proof.
  intros [He12 H12] [He23 H23]. split; [congruence|]. intros k.
  destruct (H23 k) as [H|(v & Hv & Hs & Ha)].
  - destruct (H12 k) as [H'|(v & Hv & Hs & Ha)]; [left; congruence|].
    right. exists v. split_and!; [done| |done].
    destruct Hs as (p & Hp & Hpv). exists p. by rewrite H.
  - right. exists v. split_and!; [done..|].
    destruct (H12 k) as [H'|(v' & _ & _ & Ha')]; [|done].
    by rewrite <- (accepts_same o1 o2 k).
Qed.

Lemma step_scanned_from (controls : list (string * AbstractControl))
  (k : string) (o o1 : Descriptor.Obj Slot) (m m1 : Js.value)
  (e : option Exception) :
  step_end (profile controls k) k o m = (e, o1, m1) →
  scanned_from controls o o1.
Proof.
  unfold step_end.
  destruct (stores (profile controls k)) as [v|] eqn:Hv;
    [|intros [= _ <- _]; apply scanned_from_refl].
  destruct (Descriptor.accepts o k) eqn:Ha;
    [|intros [= _ <- _]; apply scanned_from_refl].
  intros [= _ <- _]. split; [done|]. intros k'.
  destruct (decide (k = k')) as [<-|Hne].
  - right. exists v. split_and!; [done|apply settled_write_eq|done].
  - left. by apply properties_write_ne.
Qed.

Lemma walk_scanned_from (controls : list (string * AbstractControl))
  (keys : list string) :
  ∀ (o oF : Descriptor.Obj Slot) (m mF : Js.value) (e : option Exception),
  walk_end controls keys o m = (e, oF, mF) → scanned_from controls o oF.
Proof.
  induction keys as [|k keys IH]; intros o oF m mF e; simpl.
  - intros [= _ <- _]. apply scanned_from_refl.
  - destruct (step_end (profile controls k) k o m) as [[[e1|] o1] m1] eqn:Hstep.
    + intros [= _ <- _]. by eapply step_scanned_from.
    + intros H. eapply scanned_from_trans; [by eapply step_scanned_from|].
      by eapply IH.
Qed.

(** A step that has been taken is taken again, with the same end, on every
    accumulator that later steps have made of the one it left. *)
Lemma step_absorbed (controls : list (string * AbstractControl)) (k : string)
  (o o1 o2 : Descriptor.Obj Slot) (m m1 m2 : Js.value) (e : option Exception) :
  step_end (profile controls k) k o m = (e, o1, m1) →
  scanned_from controls o1 o2 →
  ∃ m2', step_end (profile controls k) k o2 m2 = (e, o2, m2')
         ∧ (m2' = m1 ∨ (m2' = m2 ∧ m1 = m)).
Proof.
  destruct (steady_profile controls k) as [Hl Hr].
  unfold step_end. intros Hstep [Hext Hprops].
  destruct (stores (profile controls k)) as [v|] eqn:Hv.
  - destruct (Descriptor.accepts o k) eqn:Ha; simplify_eq.
    + assert (settled o2 k v) as Hs.
      { destruct (Hprops k) as [H|(v' & Hv' & Hs & _)]; [|congruence].
        destruct (settled_write_eq o k v) as (p & Hp & Hpv).
        exists p. by rewrite H. }
      rewrite (accepts_settled _ _ _ Hs), (write_settled _ _ _ Hs).
      eexists. split; [done|]. by apply steady_pair.
    + assert (Descriptor.accepts o2 k = false) as ->.
      { destruct (Hprops k) as [H|(v' & _ & _ & Ha')]; [|congruence].
        by rewrite (accepts_same o1 o2 k). }
      eexists. split; [done|]. by apply steady_pair.
  - simplify_eq. eexists. split; [done|]. by apply steady_pair.
Qed.

Lemma walk_absorbed (controls : list (string * AbstractControl))
  (keys : list string) :
  ∀ (o oF o2 : Descriptor.Obj Slot) (m mF m2 : Js.value)
    (e : option Exception),
  walk_end controls keys o m = (e, oF, mF) →
  scanned_from controls oF o2 →
  ∃ m2', walk_end controls keys o2 m2 = (e, o2, m2')
         ∧ (m2' = mF ∨ (m2' = m2 ∧ mF = m)).
Proof.
  induction keys as [|k keys IH]; intros o oF o2 m mF m2 e; simpl.
  - intros [= <- _ <-] _. eexists. split; [done|]. by right.
  - destruct (step_end (profile controls k) k o m) as [[[e1|] o1] m1] eqn:Hstep.
    + intros [= <- <- <-] Hfrom.
      destruct (step_absorbed controls k o o1 o2 m m1 m2 _ Hstep Hfrom)
        as (m2' & -> & Hm). eauto.
    + intros Hwalk Hfrom.
      assert (scanned_from controls o1 o2) as Hfrom1.
      { eapply scanned_from_trans; [|done]. by eapply walk_scanned_from. }
      destruct (step_absorbed controls k o o1 o2 m m1 m2 _ Hstep Hfrom1)
        as (m2' & -> & Hm).
      destruct (IH o1 oF o2 m1 mF m2' e Hwalk Hfrom) as (m2'' & -> & Hm').
      eexists. split; [done|].
      destruct Hm' as [->|[-> ->]]; [by left|].
      destruct Hm as [->|[-> ->]]; [by left|by right].
Qed.

Lemma findErrors_again (controls : list (string * AbstractControl)) (s : State) :
  findErrors controls (final (findErrors controls s)) = findErrors controls s.
Proof.
  unfold findErrors. rewrite (walk_run controls _ s).
  destruct (walk_end controls (fst <$> controls) (errorObject s) (message s))
    as [[e o] m] eqn:Hwalk.
  assert (final (ended e o m s) = with_message m (with_errorObject o s)) as ->
    by by destruct e.
  rewrite walk_run. simpl.
  destruct (walk_absorbed controls _ _ _ o _ _ m _ Hwalk
              (scanned_from_refl controls o)) as (m' & -> & Hm).
  assert (m' = m) as -> by by destruct Hm as [->|[-> _]].
  reflexivity.
Qed.

(** ** The object of a row *)





(** ** Names a scan leaves alone *)

Lemma preserves_bind {A B : Type} (k : string) (m : M A) (f : A → M B) :
  preserves k m → (∀ a, preserves k (f a)) → preserves k (m ≫= f).
Proof.
  intros Hm Hf s. rewrite bind_run. specialize (Hm s).
  destruct (m s) as [a s1|e s1]; simpl in *; [|done].
  by rewrite Hf.
Qed.

Lemma preserves_ret {A : Type} (k : string) (a : A) : preserves k (mret a).
Proof. by intros s. Qed.

Lemma preserves_gets {A : Type} (k : string) (f : State → A) :
  preserves k (gets f).
Proof. by intros s. Qed.

Lemma preserves_require {A : Type} (k reason : string) (o : option A) :
  preserves k (require reason o).
Proof. intros s. by destruct o. Qed.

Lemma preserves_forEach {A : Type} (k : string) (xs : list A) (f : A → M unit) :
  (∀ x, preserves k (f x)) → preserves k (forEach xs f).
Proof.
  intros Hf. induction xs as [|x xs IH]; simpl; [apply preserves_ret|].
  apply preserves_bind; auto.
Qed.

Lemma preserves_setErrorMessage (k : string) (errs : option ValidationErrors) :
  preserves k (setErrorMessage errs).
Proof.
  intros s. destruct errs as [errs|]; [|done].
  by rewrite setErrorMessage_formatMessage.
Qed.

Lemma preserves_define (k k' : string) (v : Slot) :
  k' ≠ k → preserves k (defineProperty_errorObject k' v).
Proof.
  intros Hne s. unfold defineProperty_errorObject.
  rewrite bind_run. simpl. rewrite bind_run. unfold Descriptor.defineProperty.
  destruct (Descriptor.accepts (errorObject s) k'); simpl; [|done].
  by apply properties_write_ne.
Qed.

Lemma preserves_formArrayErrors (k name : string) :
  preserves k (formArrayErrors name).
Proof.
  intros s. unfold formArrayErrors. rewrite bind_run. simpl.
  by destruct (Descriptor.read (errorObject s) name) as [[]|].
Qed.

Lemma preserves_store (k name : string) (rows : list (Descriptor.Obj Js.value)) :
  name ≠ k → preserves k (store_formArrayErrors name rows).
Proof.
  intros Hne s. unfold store_formArrayErrors. rewrite bind_run. simpl.
  by apply properties_update_ne.
Qed.

Lemma preserves_row_control (k name control : string) (i : nat)
  (members : list (string * AbstractControl)) :
  name ≠ k → preserves k (findErrorsOnFormArrays_control members name i control).
Proof.
  intros Hne. unfold findErrorsOnFormArrays_control.
  apply preserves_bind; [apply preserves_require|]. intros c.
  destruct (hasError c); [|apply preserves_ret].
  apply preserves_bind; [apply preserves_setErrorMessage|]. intros _.
  apply preserves_bind; [apply preserves_gets|]. intros m.
  unfold defineProperty_row.
  apply preserves_bind; [apply preserves_formArrayErrors|]. intros rows.
  apply preserves_bind; [apply preserves_require|]. intros row.
  apply preserves_bind; [apply preserves_require|]. intros row'.
  by apply preserves_store.
Qed.

Lemma preserves_rows (k name : string) (rows : list AbstractControl) :
  name ≠ k → ∀ i, preserves k (findErrorsOnFormArrays_from i rows name).
Proof.
  intros Hne. induction rows as [|row rows IH]; intros i; simpl.
  - apply preserves_ret.
  - apply preserves_bind.
    { unfold formArrayErrors_push.
      apply preserves_bind; [apply preserves_formArrayErrors|]. intros cur.
      by apply preserves_store. }
    intros _. apply preserves_bind; [apply preserves_require|]. intros members.
    apply preserves_bind; [|intros _; apply IH].
    apply preserves_forEach. intros control. by apply preserves_row_control.
Qed.

Lemma preserves_control (controls : list (string * AbstractControl))
  (k k' : string) :
  k' ≠ k → preserves k (findErrors_control controls k').
Proof.
  intros Hne. unfold findErrors_control.
  destruct (own_get k' controls) as [[st|st members|st rows]|];
    try apply preserves_ret.
  - unfold findErrorsOnFormControls.
    apply preserves_bind; [apply preserves_require|]. intros c.
    destruct (hasError c); [|apply preserves_ret].
    apply preserves_bind; [apply preserves_setErrorMessage|]. intros _.
    unfold setErrorToErrorObject.
    apply preserves_bind; [apply preserves_gets|]. intros m.
    by apply preserves_define.
  - apply preserves_bind; [by apply preserves_define|]. intros _.
    by apply preserves_rows.
Qed.

(** A child under whose name the scan stores nothing (a group, a field that
    is not in error, a field in error without a failure-kind set) keeps its
    entry through its own step. *)
Lemma preserves_unwritten_control (controls : list (string * AbstractControl))
  (k : string) (c : AbstractControl) :
  own_get k controls = Some c →
  scan_slot c = None →
  preserves k (findErrors_control controls k).
Proof.
  intros Hc Hslot s. unfold findErrors_control. rewrite Hc.
  destruct c as [st|st members|st rows]; [|done..].
  unfold findErrorsOnFormControls, control_at.
  rewrite bind_run, Hc. simpl. simpl in Hslot.
  destruct (hasError (FormControl st)); [|done].
  destruct (errors st); [discriminate|done].
Qed.

Lemma preserves_unwritten (controls : list (string * AbstractControl))
  (k : string) (c : AbstractControl) :
  own_get k controls = Some c →
  scan_slot c = None →
  preserves k (findErrors controls).
Proof.
  intros Hc Hslot. unfold findErrors. apply preserves_forEach. intros k'.
  destruct (decide (k' = k)) as [->|Hne].
  - by apply preserves_unwritten_control with c.
  - by apply preserves_control.
Qed.

Lemma forEach_ext {A : Type} (xs : list A) (f g : A → M unit) :
  (∀ x s, f x s = g x s) → ∀ s, forEach xs f s = forEach xs g s.
Proof.
  intros H. induction xs as [|x xs IH]; intros s; simpl; [done|].
  rewrite !bind_run, H. destruct (g x s); [apply IH|done].
Qed.

Lemma findErrors_group_contents (controls : list (string * AbstractControl))
  (k : string) (st st' : ControlState)
  (members members' : list (string * AbstractControl)) (s : State) :
  own_get k controls = Some (FormGroup st members) →
  findErrors (own_set k (FormGroup st' members') controls) s
  = findErrors controls s.
Proof.
  intros Hc. unfold findErrors. rewrite own_set_keys.
  apply forEach_ext. intros k' s'. unfold findErrors_control.
  destruct (decide (k = k')) as [<-|Hne].
  - rewrite own_get_own_set_eq by eauto. by rewrite Hc.
  - rewrite own_get_own_set_ne by done.
    destruct (own_get k' controls) as [[]|] eqn:Hk'; try done.
    unfold findErrorsOnFormControls, control_at.
    by rewrite !bind_run, own_get_own_set_ne.
Qed.

(** * The properties of the specification *)

(** ** The server-error mapper *)

Lemma carries_setErrors (m : Js.value) (target : AbstractControl) :
  carries (Some (setErrors [("serverError", m)] target)) m.
Proof. eexists. split; [done|]. apply errors_setErrors. Qed.

(** C1.  A nested mapping is handled inner key by inner key, each by a
    two-tier lookup: a control that the inner key names under the root takes
    the message as its server-error kind; only when there is none does the
    field that the inner key names inside the control of the outer key take
    it.  The payload [{"address": {"city": "Required"}}], on a form with no
    [city] of its own and a group [address] holding [city], leaves the
    message on [address.city] and [email] as it was. *)
Theorem nested_entry_two_tier_lookup :
  (∀ (s : State) (f : AbstractControl) (outer inner : string)
     (nested m : Js.value),
     form s = Some f →
     Js.get nested inner = Some m →
     match get f inner with
     | Some _ =>
         ∃ f', setErrorsToNestedFields_field outer nested inner s
               = Normal tt (with_form f' s)
               ∧ update_path (split_path inner)
                   (setErrors [("serverError", m)]) f = Some f'
               ∧ carries (get f' inner) m
     | None =>
         ∀ group target,
           get f outer = Some group →
           get group inner = Some target →
           ∃ f', setErrorsToNestedFields_field outer nested inner s
                 = Normal tt (with_form f' s)
                 ∧ update_path (split_path outer ++ split_path inner)
                     (setErrors [("serverError", m)]) f = Some f'
                 ∧ carries (get f' outer ≫= λ g, get g inner) m
     end)
  ∧ (∀ (s : State) (outer : string) (props : list (string * Js.value)),
       Js.get (serverError s) outer = Some (Js.Object props) →
       setErrorToFormFields_field outer s
       = forEach (fst <$> props)
           (setErrorsToNestedFields_field outer (Js.Object props)) s)
  ∧ (∃ f', organizeServerErrors Example.city_required Example.signup Example.idle
           = Normal tt (with_form f'
                          (with_serverError Example.city_required Example.idle))
           ∧ carries (get f' "address.city") (Js.Str "Required")
           ∧ get f' "city" = None
           ∧ get f' "email" = Some Example.field).
Proof.
  split_and!.
  - intros s f outer inner nested m Hf Hm.
    destruct (get f inner) as [target|] eqn:Hflat.
    + destruct (nested_field_flat s f target outer inner nested m Hf Hm Hflat)
        as (f' & Hrun & Hup & Hget).
      exists f'. split_and!; [done..|]. rewrite Hget. apply carries_setErrors.
    + intros group target Hg Ht.
      destruct (nested_field_group s f group target outer inner nested m
                  Hf Hm Hflat Hg Ht) as (f' & Hrun & Hup & Hget).
      exists f'. split_and!; [done..|]. rewrite Hget. apply carries_setErrors.
  - apply nested_dispatch.
  - eexists. split_and!; [vm_compute; reflexivity| |reflexivity..].
    eexists. split; reflexivity.
Qed.

Lemma nested_entry_two_tier_lookup_witness :
  let s := with_serverError Example.city_required
             (with_form Example.signup Example.idle) in
  let nested := Js.Object [("city", Js.Str "Required")] in
  form s = Some Example.signup
  ∧ Js.get nested "city" = Some (Js.Str "Required")
  ∧ get Example.signup "address"
    = Some (FormGroup Example.untouched [("city", Example.field)])
  ∧ get (FormGroup Example.untouched [("city", Example.field)]) "city"
    = Some Example.field
  ∧ ∃ f', setErrorsToNestedFields_field "address" nested "city" s
          = Normal tt (with_form f' s)
          ∧ update_path (split_path "address" ++ split_path "city")
              (setErrors [("serverError", Js.Str "Required")]) Example.signup
            = Some f'
          ∧ carries (get f' "address" ≫= λ g, get g "city") (Js.Str "Required").
Proof.
  intros s nested. split_and!; [reflexivity..|].
  destruct nested_entry_two_tier_lookup as [H _].
  exact (H s Example.signup "address" "city" nested (Js.Str "Required")
           eq_refl eq_refl
           (FormGroup Example.untouched [("city", Example.field)])
           Example.field eq_refl eq_refl).
Defined.

(** C2, at the input where the code departs from it: neither the inner key
    [city] nor the outer key [address] names a control of the form, and the
    mapper throws instead of dropping the entry. *)
Theorem nested_entry_without_group_throws :
  organizeServerErrors Example.city_required Example.login Example.idle
  = Thrown (TypeError "Cannot read properties of null (reading 'get')")
      (with_serverError Example.city_required
         (with_form Example.login Example.idle)).
Proof. reflexivity. Qed.

(** C3.  For a key whose value is a sequence of messages and which names a
    control, the control takes the first message of the sequence as its
    server-error kind; the others play no part.  The payload
    [{"email": ["Email taken", "Try another"]}] leaves [email] with
    "Email taken". *)
Theorem sequence_entry_first_message :
  (∀ (s : State) (f target : AbstractControl) (key : string)
     (first : Js.value) (rest : list Js.value),
     form s = Some f →
     Js.get (serverError s) key = Some (Js.Array (first :: rest)) →
     get f key = Some target →
     ∃ f', setErrorToFormFields_field key s = Normal tt (with_form f' s)
           ∧ update_path (split_path key)
               (setErrors [("serverError", first)]) f = Some f'
           ∧ carries (get f' key) first)
  ∧ (∃ f', organizeServerErrors Example.email_taken Example.signup Example.idle
           = Normal tt (with_form f'
                          (with_serverError Example.email_taken Example.idle))
           ∧ carries (get f' "email") (Js.Str "Email taken")).
Proof.
  split.
  - intros s f target key first rest Hf Hv Ht.
    destruct (sequence_field s f target key first rest Hf Hv Ht)
      as (f' & Hrun & Hup & Hget).
    exists f'. split_and!; [done..|]. rewrite Hget. apply carries_setErrors.
  - eexists. split; [vm_compute; reflexivity|].
    eexists. split; reflexivity.
Qed.

Lemma sequence_entry_first_message_witness :
  let s := with_serverError Example.email_taken
             (with_form Example.signup Example.idle) in
  form s = Some Example.signup
  ∧ Js.get (serverError s) "email"
    = Some (Js.Array [Js.Str "Email taken"; Js.Str "Try another"])
  ∧ get Example.signup "email" = Some Example.field
  ∧ ∃ f', setErrorToFormFields_field "email" s = Normal tt (with_form f' s)
          ∧ update_path (split_path "email")
              (setErrors [("serverError", Js.Str "Email taken")]) Example.signup
            = Some f'
          ∧ carries (get f' "email") (Js.Str "Email taken").
Proof.
  intros s. split_and!; [reflexivity..|].
  destruct sequence_entry_first_message as [H _].
  exact (H s Example.signup Example.field "email" (Js.Str "Email taken")
           [Js.Str "Try another"] eq_refl eq_refl eq_refl).
Defined.



(** C10.  With a [null] or [undefined] payload the entry point does
    nothing: the state of the service, the form it refers to and the signals
    are what they were, and nothing is thrown. *)
Theorem null_payload_no_op (f : AbstractControl) (s : State) :
  organizeServerErrors Js.Null f s = Normal tt s
  ∧ organizeServerErrors Js.Undefined f s = Normal tt s.
Proof. split; reflexivity. Qed.

(** ** The message formatter *)

(** C4.  On every failure-kind set the formatter ends normally, and the
    message it stores is that of the first kind present in the order
    maxlength, email, required, min, max, pattern, serverError
    ([formatMessage]); the length and range messages spell out both the
    bound and the actual value; a set with none of the kinds gives the
    empty string. *)
Theorem formatter_priority_order :
  (∀ (errs : ValidationErrors) (s : State),
     setErrorMessage (Some errs) s
     = Normal tt (with_message (formatMessage errs) s))
  ∧ (∀ (errs : ValidationErrors) (required actual : Js.value),
       formatMessage
         (("maxlength", Js.Object [("requiredLength", required);
                                   ("actualLength", actual)]) :: errs)
       = Js.Str ("Gjatësia maksimale e lejuar " +:+ Js.ToString actual
                 +:+ "/" +:+ Js.ToString required))
  ∧ (∀ bound actual : Js.value,
       formatMessage [("min", Js.Object [("min", bound); ("actual", actual)])]
       = Js.Str ("Vlera minimale është " +:+ Js.ToString bound
                 +:+ ", vlera aktuale " +:+ Js.ToString actual))
  ∧ (∀ bound actual : Js.value,
       formatMessage [("max", Js.Object [("max", bound); ("actual", actual)])]
       = Js.Str ("Vlera maksimale është " +:+ Js.ToString bound
                 +:+ ", vlera aktuale " +:+ Js.ToString actual))
  ∧ formatMessage
      [("min", Js.Object [("min", Js.Number 5); ("actual", Js.Number 2)])]
    = Js.Str "Vlera minimale është 5, vlera aktuale 2"
  ∧ formatMessage
      [("pattern", Js.Object []); ("required", Js.Bool true);
       ("serverError", Js.Str "Taken")]
    = Js.Str "Fushë e detyrueshme"
  ∧ (∀ errs : ValidationErrors,
       existsb (hasKind errs) priority = false →
       formatMessage errs = Js.Str "").
Proof.
  split_and!; try reflexivity.
  - apply setErrorMessage_formatMessage.
  - intros errs H. unfold formatMessage.
    destruct (find (hasKind errs) priority) as [kind|] eqn:Hfind; [|done].
    apply find_some in Hfind as [Hin Hk].
    assert (existsb (hasKind errs) priority = true); [|congruence].
    apply existsb_exists. eauto.
Qed.

Lemma formatter_priority_order_witness :
  existsb (hasKind [("custom", Js.Bool true)]) priority = false
  ∧ formatMessage [("custom", Js.Bool true)] = Js.Str "".
Proof.
  split; [reflexivity|].
  destruct formatter_priority_order as (_ & _ & _ & _ & _ & _ & H).
  apply H. reflexivity.
Defined.

(** ** The local-validation scanner *)






(** C8.  A second scan, run on the state the first one left, ends as the
    first one did and leaves the same state, the accumulator included.  In
    particular, after a scan that has completed the second one completes
    too: the properties it defines again are writable, so no definition is
    rejected, and each is given the value and the attributes it had. *)
Theorem scan_idempotent (controls : list (string * AbstractControl))
  (s : State) :
  findErrors controls (final (findErrors controls s)) = findErrors controls s
  ∧ ∀ s', findErrors controls s = Normal tt s' →
          findErrors controls s' = Normal tt s'.
Proof.
  split; [apply findErrors_again|].
  intros s' H. pose proof (findErrors_again controls s) as H'.
  by rewrite H in H'.
Qed.

Lemma scan_idempotent_witness :
  findErrors Example.order Example.idle
  = Normal tt (scanned Example.order Example.idle)
  ∧ findErrors Example.order (scanned Example.order Example.idle)
    = Normal tt (scanned Example.order Example.idle).
Proof.
  assert (findErrors Example.order Example.idle
          = Normal tt (scanned Example.order Example.idle)) as H
    by (vm_compute; reflexivity).
  split; [exact H|].
  destruct (scan_idempotent Example.order Example.idle) as [_ Hagain].
  exact (Hagain (scanned Example.order Example.idle) H).
Defined.

(** The same holds of the callback of the subscription, which scans only an
    invalid form. *)
Lemma value_change_idempotent (f : AbstractControl) (s s' : State) :
  onValueChanges f s = Normal tt s' → onValueChanges f s' = Normal tt s'.
Proof.
  unfold onValueChanges. destruct (invalid f); [|by intros [= ->]].
  rewrite !bind_run. destruct (controls_of f) as [controls|]; simpl; [|done].
  intros H. pose proof (findErrors_again controls s) as H'.
  by rewrite H in H'.
Qed.

(** C9.  A [FormGroup] child of the root is not descended into: however the
    scan ends, the accumulator entry of its name is what it was, and the
    outcome of the scan is the same whatever the group holds, so that no
    message of a field inside it is recorded. *)
Theorem group_child_not_scanned (controls : list (string * AbstractControl))
  (s : State) (name : string) (st : ControlState)
  (members : list (string * AbstractControl)) :
  own_get name controls = Some (FormGroup st members) →
  Descriptor.properties (errorObject (final (findErrors controls s))) !! name
  = Descriptor.properties (errorObject s) !! name
  ∧ ∀ st' members',
      findErrors (own_set name (FormGroup st' members') controls) s
      = findErrors controls s.
Proof.
  intros Hc. split.
  - by apply (preserves_unwritten controls name (FormGroup st members)).
  - intros st' members'. by eapply findErrors_group_contents.
Qed.

Lemma group_child_not_scanned_witness :
  own_get "shipping" Example.order
  = Some (FormGroup Example.in_error Example.shipping)
  ∧ Descriptor.properties
      (errorObject (final (findErrors Example.order Example.idle)))
    !! "shipping" = None
  ∧ findErrors
      (own_set "shipping" (FormGroup Example.untouched []) Example.order)
      Example.idle
    = findErrors Example.order Example.idle.
Proof.
  destruct (group_child_not_scanned Example.order Example.idle "shipping"
              Example.in_error Example.shipping eq_refl) as [H1 H2].
  split_and!; [reflexivity|exact H1|exact (H2 Example.untouched [])].
Defined.

(** * Further properties of the service *)

(** ** The server-error mapper: entries that attach nothing *)

Lemma forEach_skipped {A : Type} (xs : list A) (f : A → M unit) (s : State) :
  (∀ x, x ∈ xs → f x s = Normal tt s) → forEach xs f s = Normal tt s.
Proof.
  induction xs as [|x xs IH]; intros H; simpl; [done|].
  rewrite bind_run, H by apply list_elem_of_here.
  apply IH. intros y Hy. apply H. by apply list_elem_of_further.
Qed.

Lemma index_keys_elem (k : string) (n : nat) :
  k ∈ index_keys n → ∃ i, i < n ∧ k = pretty i.
Proof.
  unfold index_keys. intros H. apply list_elem_of_fmap in H as (i & -> & Hi).
  apply elem_of_seq in Hi. exists i. split; [lia|done].
Qed.

Lemma get_leaf (st : ControlState) (path : string) :
  get (FormControl st) path = None.
Proof.
  rewrite get_find_path. by destruct (split_path_cons path) as (seg & segs & ->).
Qed.

(** X1.  A key whose value is a sequence and which names no control of the
    form is passed over: nothing is attached, nothing is thrown, and the
    state is what it was. *)
Theorem sequence_entry_unknown_key_dropped (s : State) (f : AbstractControl)
  (key : string) (items : list Js.value) :
  form s = Some f →
  Js.get (serverError s) key = Some (Js.Array items) →
  get f key = None →
  setErrorToFormFields_field key s = Normal tt s.
Proof.
  intros Hf Hv Hg. unfold setErrorToFormFields_field.
  rewrite bind_run. simpl. rewrite bind_run, (prop_run _ _ _ _ Hv). simpl.
  by rewrite bind_run, (form_get_run _ _ _ Hf), Hg.
Qed.

Lemma sequence_entry_unknown_key_dropped_witness :
  let s := with_serverError (Js.Object [("phone", Js.Array [Js.Str "Bad"])])
             (with_form Example.login Example.idle) in
  form s = Some Example.login
  ∧ Js.get (serverError s) "phone" = Some (Js.Array [Js.Str "Bad"])
  ∧ get Example.login "phone" = None
  ∧ setErrorToFormFields_field "phone" s = Normal tt s.
Proof.
  intros s. split_and!; [reflexivity..|].
  exact (sequence_entry_unknown_key_dropped s Example.login "phone"
           [Js.Str "Bad"] eq_refl eq_refl eq_refl).
Defined.

(** X2.  An empty sequence under a key that names a control still attaches
    the server-error kind, with [undefined] for a message; the formatter
    makes the empty string of it. *)
Theorem empty_sequence_attaches_undefined (s : State)
  (f target : AbstractControl) (key : string) :
  form s = Some f →
  Js.get (serverError s) key = Some (Js.Array []) →
  get f key = Some target →
  ∃ f', setErrorToFormFields_field key s = Normal tt (with_form f' s)
        ∧ carries (get f' key) Js.Undefined
        ∧ ∀ s0, setErrorMessage (Some [("serverError", Js.Undefined)]) s0
                = Normal tt (with_message (Js.Str "") s0).
Proof.
  intros Hf Hv Ht. unfold setErrorToFormFields_field.
  rewrite bind_run. simpl. rewrite bind_run, (prop_run _ _ _ _ Hv). simpl.
  rewrite bind_run, (form_get_run _ _ _ Hf), Ht.
  rewrite bind_run. simpl.
  rewrite get_find_path in Ht.
  destruct (attach_at_path _ [("serverError", Js.Undefined)] s f target Hf Ht)
    as (f' & Hr & Hu & Hg).
  exists f'. split_and!; [done| |].
  - rewrite get_find_path, Hg. eexists. split; [done|]. apply errors_setErrors.
  - intros s0. by rewrite setErrorMessage_formatMessage.
Qed.

Lemma empty_sequence_attaches_undefined_witness :
  let s := with_serverError (Js.Object [("email", Js.Array [])])
             (with_form Example.login Example.idle) in
  form s = Some Example.login
  ∧ Js.get (serverError s) "email" = Some (Js.Array [])
  ∧ get Example.login "email" = Some Example.field
  ∧ ∃ f', setErrorToFormFields_field "email" s = Normal tt (with_form f' s)
          ∧ carries (get f' "email") Js.Undefined.
Proof.
  intros s. split_and!; [reflexivity..|].
  destruct (empty_sequence_attaches_undefined s Example.login Example.field
              "email" eq_refl eq_refl eq_refl) as (f' & Hrun & Hc & _).
  exists f'. split; [exact Hrun|exact Hc].
Defined.

(** X3.  A plain string under a key that names a field attaches nothing:
    the string is walked character by character as if it were a nested
    mapping, no character index names a control, and each is dropped.  The
    message is lost without an exception. *)
Theorem string_entry_dropped (s : State) (f : AbstractControl) (key : string)
  (st : ControlState) (text : string) :
  form s = Some f →
  Js.get (serverError s) key = Some (Js.Str text) →
  get f key = Some (FormControl st) →
  (∀ i, i < String.length text → get f (pretty i) = None) →
  setErrorToFormFields_field key s = Normal tt s.
Proof.
  intros Hf Hv Ht Hidx. unfold setErrorToFormFields_field.
  rewrite bind_run. simpl. rewrite bind_run, (prop_run _ _ _ _ Hv). simpl.
  unfold setErrorsToNestedFields. rewrite bind_run. simpl.
  rewrite bind_run, (prop_run _ _ _ _ Hv). rewrite bind_run. simpl.
  apply forEach_skipped. intros k Hk.
  apply index_keys_elem in Hk as (i & Hi & ->).
  apply nested_field_dropped with f (FormControl st); auto using get_leaf.
Qed.

Lemma string_entry_dropped_witness :
  let s := with_serverError (Js.Object [("email", Js.Str "Taken")])
             (with_form Example.login Example.idle) in
  form s = Some Example.login
  ∧ Js.get (serverError s) "email" = Some (Js.Str "Taken")
  ∧ get Example.login "email" = Some (FormControl Example.untouched)
  ∧ setErrorToFormFields_field "email" s = Normal tt s.
Proof.
  intros s. split_and!; [reflexivity..|].
  apply (string_entry_dropped s Example.login "email" Example.untouched "Taken");
    [reflexivity..|].
  intros i Hi. rewrite get_find_path.
  destruct (split_path_cons (pretty i)) as (seg & segs & Hsplit).
  rewrite Hsplit. simpl.
  destruct (decide ("email" = seg)) as [<-|]; [|done].
  assert (String.length "Taken" = 5) as Hlen by reflexivity.
  rewrite Hlen in Hi.
  do 5 (destruct i as [|i]; [vm_compute in Hsplit; discriminate|]). lia.
Defined.

(** ** The server-error mapper: what it leaves alone *)

Lemma leaves_bind {A B : Type} (m : M A) (f : A → M B) :
  leaves_scan_state m → (∀ a, leaves_scan_state (f a)) →
  leaves_scan_state (m ≫= f).
Proof.
  intros Hm Hf s. rewrite bind_run. specialize (Hm s).
  destruct (m s) as [a s1|e s1]; simpl in *; [|done].
  destruct (Hf a s1) as (-> & -> & ->). done.
Qed.

Lemma leaves_ret {A : Type} (a : A) : leaves_scan_state (mret a).
Proof. by intros s. Qed.

Lemma leaves_gets {A : Type} (f : State → A) : leaves_scan_state (gets f).
Proof. by intros s. Qed.

Lemma leaves_require {A : Type} (reason : string) (o : option A) :
  leaves_scan_state (require reason o).
Proof. intros s. by destruct o. Qed.

Lemma leaves_set_form (f : AbstractControl) : leaves_scan_state (set_form f).
Proof. by intros s. Qed.

Lemma leaves_set_serverError (v : Js.value) :
  leaves_scan_state (set_serverError v).
Proof. by intros s. Qed.

Lemma leaves_forEach {A : Type} (xs : list A) (f : A → M unit) :
  (∀ x, leaves_scan_state (f x)) → leaves_scan_state (forEach xs f).
Proof.
  intros Hf. induction xs as [|x xs IH]; simpl; [apply leaves_ret|].
  apply leaves_bind; auto.
Qed.

Lemma leaves_form_get (path : string) : leaves_scan_state (form_get path).
Proof.
  unfold form_get. apply leaves_bind; [apply leaves_gets|]. intros f.
  apply leaves_bind; [apply leaves_require|]. intros f'. apply leaves_ret.
Qed.

Lemma leaves_ref_get (r : Ref) (path : string) :
  leaves_scan_state (ref_get r path).
Proof.
  unfold ref_get. apply leaves_bind; [apply leaves_gets|]. intros f.
  apply leaves_bind; [apply leaves_require|]. intros f'. apply leaves_ret.
Qed.

Lemma leaves_ref_setErrors (r : Ref) (errs : ValidationErrors) :
  leaves_scan_state (ref_setErrors r errs).
Proof.
  unfold ref_setErrors. apply leaves_bind; [apply leaves_gets|]. intros f.
  apply leaves_bind; [apply leaves_require|]. intros f'.
  apply leaves_bind; [apply leaves_require|]. intros f''.
  apply leaves_set_form.
Qed.

Lemma leaves_nested_field (outer inner : string) (nested : Js.value) :
  leaves_scan_state (setErrorsToNestedFields_field outer nested inner).
Proof.
  unfold setErrorsToNestedFields_field.
  apply leaves_bind; [apply leaves_form_get|]. intros [r|].
  - apply leaves_bind; [apply leaves_require|]. intros m.
    apply leaves_ref_setErrors.
  - apply leaves_bind; [apply leaves_form_get|]. intros nestedForm.
    apply leaves_bind; [apply leaves_require|]. intros r.
    apply leaves_bind; [apply leaves_ref_get|]. intros [r'|];
      [|apply leaves_ret].
    apply leaves_bind; [apply leaves_require|]. intros m.
    apply leaves_ref_setErrors.
Qed.

Lemma leaves_field (field : string) :
  leaves_scan_state (setErrorToFormFields_field field).
Proof.
  unfold setErrorToFormFields_field.
  apply leaves_bind; [apply leaves_gets|]. intros payload.
  apply leaves_bind; [apply leaves_require|]. intros value.
  destruct (negb (Js.isArray value)).
  - unfold setErrorsToNestedFields.
    apply leaves_bind; [apply leaves_gets|]. intros payload'.
    apply leaves_bind; [apply leaves_require|]. intros nested.
    apply leaves_bind; [apply leaves_require|]. intros keys.
    apply leaves_forEach. intros inner. apply leaves_nested_field.
  - apply leaves_bind; [apply leaves_form_get|]. intros [r|];
      [|apply leaves_ret].
    apply leaves_bind; [apply leaves_require|]. intros first.
    apply leaves_ref_setErrors.
Qed.

Lemma leaves_setErrorToFormFields : leaves_scan_state setErrorToFormFields.
Proof.
  unfold setErrorToFormFields.
  apply leaves_bind; [apply leaves_gets|]. intros payload.
  apply leaves_bind; [apply leaves_require|]. intros keys.
  apply leaves_forEach. intros field. apply leaves_field.
Qed.

(** X4.  Whatever the payload and however the call ends, the mapper leaves
    the accumulator and [this.message] as they were; it raises a signal
    only for a payload that is an array. *)
Theorem mapper_leaves_accumulator (payload : Js.value) (f : AbstractControl)
  (s : State) :
  errorObject (final (organizeServerErrors payload f s)) = errorObject s
  ∧ message (final (organizeServerErrors payload f s)) = message s
  ∧ (Js.isArray payload = false →
     signals (final (organizeServerErrors payload f s)) = signals s).
Proof.
  unfold organizeServerErrors.
  destruct (Js.truthy payload); [|done].
  destruct (Js.isArray payload) eqn:Harr; simpl.
  - split_and!; [reflexivity..|done].
  - assert (leaves_scan_state
              (set_form f;; set_serverError payload;; setErrorToFormFields))
      as H.
    { apply leaves_bind; [apply leaves_set_form|]. intros _.
      apply leaves_bind; [apply leaves_set_serverError|]. intros _.
      apply leaves_setErrorToFormFields. }
    destruct (H s) as (H1 & H2 & H3). done.
Qed.

Lemma mapper_leaves_accumulator_witness :
  let s' := final (organizeServerErrors Example.email_taken Example.signup
                     Example.idle) in
  Js.isArray Example.email_taken = false
  ∧ errorObject s' = Descriptor.empty
  ∧ signals s' = [].
Proof.
  intros s'.
  destruct (mapper_leaves_accumulator Example.email_taken Example.signup
              Example.idle) as (Ho & _ & Hs).
  split_and!; [reflexivity|exact Ho|exact (Hs eq_refl)].
Defined.

(** ** The server-error mapper: the rest of the form *)

Lemma index_of_pretty (name : string) (n i : nat) :
  index_of name n = Some i → name = pretty i.
Proof.
  unfold index_of, index_keys. intros H.
  destruct (list_find _ _) as [[j k]|] eqn:Hf; simplify_eq/=.
  apply list_find_Some in Hf as (Hj & <- & _).
  rewrite list_lookup_fmap in Hj.
  destruct (seq 0 n !! i) as [i'|] eqn:Hi; simplify_eq/=.
  apply lookup_seq in Hi as [-> _]. done.
Qed.

Lemma find_child_replace_ne (c child' : AbstractControl) (name n : string) :
  n ≠ name → find_child (replace_child c name child') n = find_child c n.
Proof.
  intros Hne. destruct c as [st|st cs|st cs]; simpl; [done| |].
  - by apply own_get_own_set_ne.
  - destruct (index_of name (length cs)) as [i|] eqn:Hi; simpl; [|done].
    rewrite length_insert.
    destruct (index_of n (length cs)) as [j|] eqn:Hj; simpl; [|done].
    apply list_lookup_insert_ne. intros <-.
    apply index_of_pretty in Hi, Hj. congruence.
Qed.

Lemma state_replace_child (c child' : AbstractControl) (name : string) :
  state (replace_child c name child') = state c.
Proof.
  destruct c as [st|st cs|st cs]; simpl; [done..|].
  by destruct (index_of name (length cs)).
Qed.

Lemma find_path_setErrors (errs : ValidationErrors) (c : AbstractControl)
  (n : string) (q : list string) :
  find_path (n :: q) (setErrors errs c) = find_path (n :: q) c.
Proof.
  simpl. unfold setErrors.
  by rewrite find_child_updateControlsErrors, find_child_with_state.
Qed.

Lemma update_path_elsewhere (errs : ValidationErrors) (p : list string) :
  ∀ (c c' : AbstractControl) (q : list string),
  update_path p (setErrors errs) c = Some c' →
  ¬ q `prefix_of` p →
  find_path q c' = find_path q c.
Proof.
  induction p as [|name rest IH]; intros c c' q Hup Hq.
  - simpl in Hup. simplify_eq.
    destruct q as [|n q]; [destruct Hq; apply prefix_nil|].
    apply find_path_setErrors.
  - simpl in Hup.
    destruct (find_child c name) as [child|] eqn:Hc; simpl in Hup; [|done].
    destruct (update_path rest (setErrors errs) child) as [child'|] eqn:Hu;
      simplify_eq/=.
    destruct q as [|n q]; [destruct Hq; apply prefix_nil|]. simpl.
    rewrite find_child_updateControlsErrors.
    destruct (decide (n = name)) as [->|Hne].
    + rewrite (find_child_replace _ _ _ _ Hc), Hc. simpl.
      apply (IH child child' q Hu). intros Hpre. apply Hq.
      by apply prefix_cons.
    + by rewrite find_child_replace_ne.
Qed.

Lemma update_path_flags (errs : ValidationErrors) (p : list string) :
  ∀ (c c' x : AbstractControl) (q : list string),
  update_path p (setErrors errs) c = Some c' →
  q ≠ p →
  find_path q c = Some x →
  ∃ x', find_path q c' = Some x'
        ∧ errors (state x') = errors (state x)
        ∧ dirty (state x') = dirty (state x)
        ∧ touched (state x') = touched (state x).
Proof.
  induction p as [|name rest IH]; intros c c' x q Hup Hq Hx.
  - simpl in Hup. simplify_eq.
    destruct q as [|n q]; [done|].
    rewrite find_path_setErrors, Hx. eauto.
  - simpl in Hup.
    destruct (find_child c name) as [child|] eqn:Hc; simpl in Hup; [|done].
    destruct (update_path rest (setErrors errs) child) as [child'|] eqn:Hu;
      simplify_eq/=.
    destruct q as [|n q]; simpl in *.
    + simplify_eq. eexists. split; [done|].
      unfold updateControlsErrors.
      by rewrite state_with_state, state_replace_child.
    + rewrite find_child_updateControlsErrors.
      destruct (decide (n = name)) as [->|Hne].
      * rewrite (find_child_replace _ _ _ _ Hc). rewrite Hc in Hx. simpl in *.
        apply (IH child child' x q Hu); [congruence|done].
      * rewrite find_child_replace_ne by done. rewrite Hx. eauto.
Qed.

(** X5.  Attaching the message of a sequence entry changes the failure
    kinds of the control the key names and of no other: a control off the
    path to it is found again as it was, and a control on the path keeps
    its failure kinds and its dirty and touched flags. *)
Theorem sequence_entry_frame (s : State) (f target : AbstractControl)
  (key : string) (first : Js.value) (rest : list Js.value) :
  form s = Some f →
  Js.get (serverError s) key = Some (Js.Array (first :: rest)) →
  get f key = Some target →
  ∃ f', setErrorToFormFields_field key s = Normal tt (with_form f' s)
        ∧ (∀ q, ¬ q `prefix_of` split_path key →
             find_path q f' = find_path q f)
        ∧ (∀ q x, q ≠ split_path key → find_path q f = Some x →
             ∃ x', find_path q f' = Some x'
                   ∧ errors (state x') = errors (state x)
                   ∧ dirty (state x') = dirty (state x)
                   ∧ touched (state x') = touched (state x)).
Proof.
  intros Hf Hv Ht.
  destruct (sequence_field s f target key first rest Hf Hv Ht)
    as (f' & Hrun & Hup & _).
  exists f'. split_and!; [done| |].
  - intros q Hq. by eapply update_path_elsewhere.
  - intros q x Hq Hx. by eapply update_path_flags.
Qed.

Lemma sequence_entry_frame_witness :
  let s := with_serverError Example.email_taken
             (with_form Example.signup Example.idle) in
  form s = Some Example.signup
  ∧ Js.get (serverError s) "email"
    = Some (Js.Array [Js.Str "Email taken"; Js.Str "Try another"])
  ∧ get Example.signup "email" = Some Example.field
  ∧ ∃ f', setErrorToFormFields_field "email" s = Normal tt (with_form f' s)
          ∧ find_path ["address"; "city"] f'
            = find_path ["address"; "city"] Example.signup.
Proof.
  intros s. split_and!; [reflexivity..|].
  destruct (sequence_entry_frame s Example.signup Example.field "email"
              (Js.Str "Email taken") [Js.Str "Try another"]
              eq_refl eq_refl eq_refl) as (f' & Hrun & Hoff & _).
  exists f'. split; [exact Hrun|].
  apply Hoff. intros [k Hk]. discriminate Hk.
Defined.

(** X6.  When the inner key of a nested entry names a control under the
    root, the message goes there and the control of that name inside the
    group of the outer key, if there is one, is left as it was. *)
Theorem nested_entry_flat_shadows_group (s : State)
  (f target : AbstractControl) (outer inner : string) (nested m : Js.value) :
  form s = Some f →
  Js.get nested inner = Some m →
  get f inner = Some target →
  ∃ f', setErrorsToNestedFields_field outer nested inner s
        = Normal tt (with_form f' s)
        ∧ carries (get f' inner) m
        ∧ (get f' outer ≫= λ g, get g inner) = (get f outer ≫= λ g, get g inner).
Proof.
  intros Hf Hm Ht.
  destruct (nested_field_flat s f target outer inner nested m Hf Hm Ht)
    as (f' & Hrun & Hup & Hget).
  exists f'. split_and!; [done| |].
  - rewrite Hget. eexists. split; [done|]. apply errors_setErrors.
  - assert (∀ g : AbstractControl,
              (get g outer ≫= λ x, get x inner)
              = find_path (split_path outer ++ split_path inner) g) as Hpath.
    { intros g. rewrite find_path_app, get_find_path.
      destruct (find_path (split_path outer) g); simpl; [|done].
      apply get_find_path. }
    rewrite !Hpath. eapply update_path_elsewhere; [done|].
    intros Hpre. apply prefix_length in Hpre. rewrite length_app in Hpre.
    destruct (split_path_cons outer) as (seg & segs & Hs).
    rewrite Hs in Hpre. simpl in Hpre. lia.
Qed.

Lemma nested_entry_flat_shadows_group_witness :
  let f := FormGroup Example.untouched
             [("city", Example.field);
              ("address", FormGroup Example.untouched [("city", Example.field)])] in
  let s := with_form f Example.idle in
  let nested := Js.Object [("city", Js.Str "Required")] in
  form s = Some f
  ∧ Js.get nested "city" = Some (Js.Str "Required")
  ∧ get f "city" = Some Example.field
  ∧ ∃ f', setErrorsToNestedFields_field "address" nested "city" s
          = Normal tt (with_form f' s)
          ∧ carries (get f' "city") (Js.Str "Required")
          ∧ (get f' "address" ≫= λ g, get g "city") = Some Example.field.
Proof.
  intros f s nested. split_and!; [reflexivity..|].
  exact (nested_entry_flat_shadows_group s f Example.field "address" "city"
           nested (Js.Str "Required") eq_refl eq_refl eq_refl).
Defined.

(** ** The server-error mapper: validity after an entry *)

Lemma setErrors_leaf (errs : ValidationErrors) (st : ControlState) :
  setErrors errs (FormControl st)
  = FormControl (mkState (if decide (status st = DISABLED) then DISABLED
                          else INVALID)
                         (Some errs) (dirty st) (touched st)).
Proof. by destruct st as [[] e d t]. Qed.

Lemma status_enabled (c : AbstractControl) :
  status (state c) = INVALID ∨ status (state c) = PENDING → enabled c = true.
Proof. unfold enabled. by intros [-> | ->]. Qed.

Lemma calculateStatus_troubled (c : AbstractControl) :
  allControlsDisabled c = false →
  (anyControlsHaveStatus PENDING c = false →
   anyControlsHaveStatus INVALID c = true) →
  calculateStatus c = INVALID ∨ calculateStatus c = PENDING.
Proof.
  unfold calculateStatus. intros -> H.
  destruct (errors (state c)); [by left|].
  destruct (anyControlsHaveStatus PENDING c); [by right|].
  rewrite H by done. by left.
Qed.

(** A control with a child that is invalid or pending is, once its status
    is recomputed, invalid or pending itself. *)
Lemma parent_troubled (c child child' : AbstractControl) (name : string) :
  find_child c name = Some child →
  status (state child') = INVALID ∨ status (state child') = PENDING →
  status (state (updateControlsErrors (replace_child c name child'))) = INVALID
  ∨ status (state (updateControlsErrors (replace_child c name child')))
    = PENDING.
Proof.
  intros Hc Hst. pose proof (status_enabled _ Hst) as Hen.
  unfold updateControlsErrors. rewrite state_with_state. simpl.
  pose proof (find_child_replace c child child' name Hc) as Hfound.
  apply calculateStatus_troubled.
  - destruct (replace_child c name child') as [st|st cs|st cs] eqn:Hr;
      simpl in *; [done| |].
    + apply andb_false_iff. left.
      destruct (forallb _ _) eqn:Hall; [|done].
      eapply forallb_forall in Hall;
        [|apply list_elem_of_In; by eapply own_get_elem].
      rewrite Hfound in Hall. simpl in Hall. by rewrite Hen in Hall.
    + apply andb_false_iff. left.
      destruct (forallb _ _) eqn:Hall; [|done].
      destruct (index_of name (length cs)) as [i|]; simpl in Hfound; [|done].
      eapply forallb_forall in Hall;
        [|apply list_elem_of_In; by eapply list_elem_of_lookup_2].
      simpl in Hall. by rewrite Hen in Hall.
  - intros Hpending.
    destruct (replace_child c name child') as [st|st cs|st cs] eqn:Hr;
      simpl in *; [done| |].
    + destruct Hst as [Hst|Hst].
      * apply existsb_exists. exists name. split.
        { apply list_elem_of_In. by eapply own_get_elem. }
        rewrite Hfound. simpl. by rewrite Hen, Hst.
      * assert (existsb
                  (λ k, from_option
                          (λ ch, enabled ch
                                 && bool_decide (status (state ch) = PENDING))
                          false (own_get k cs)) (fst <$> cs) = true);
          [|congruence].
        apply existsb_exists. exists name. split.
        { apply list_elem_of_In. by eapply own_get_elem. }
        rewrite Hfound. simpl. by rewrite Hen, Hst.
    + destruct (index_of name (length cs)) as [i|]; simpl in Hfound; [|done].
      destruct Hst as [Hst|Hst].
      * apply existsb_exists. exists child'. split.
        { apply list_elem_of_In. by eapply list_elem_of_lookup_2. }
        by rewrite Hen, Hst.
      * assert (existsb
                  (λ ch, enabled ch
                         && bool_decide (status (state ch) = PENDING)) cs
                = true); [|congruence].
        apply existsb_exists. exists child'. split.
        { apply list_elem_of_In. by eapply list_elem_of_lookup_2. }
        by rewrite Hen, Hst.
Qed.

Lemma update_path_troubled (errs : ValidationErrors) (p : list string) :
  ∀ (c c' : AbstractControl) (st : ControlState),
  find_path p c = Some (FormControl st) →
  status st ≠ DISABLED →
  update_path p (setErrors errs) c = Some c' →
  status (state c') = INVALID ∨ status (state c') = PENDING.
Proof.
  induction p as [|name rest IH]; intros c c' st Hfind Hen Hup; simpl in *.
  - simplify_eq. rewrite setErrors_leaf. simpl. left. by rewrite decide_False.
  - destruct (find_child c name) as [child|] eqn:Hc; simpl in *; [|done].
    destruct (update_path rest (setErrors errs) child) as [child'|] eqn:Hu;
      simplify_eq/=.
    eapply parent_troubled; [done|]. by eapply IH.
Qed.

(** X7.  A field that takes a server error becomes invalid, and with it no
    control on the way up to the root stays valid: the root ends invalid or
    pending.  A disabled field takes the error as well but stays disabled,
    so it is not invalid. *)
Theorem sequence_entry_invalidates (s : State) (f : AbstractControl)
  (st : ControlState) (key : string) (first : Js.value)
  (rest : list Js.value) :
  form s = Some f →
  Js.get (serverError s) key = Some (Js.Array (first :: rest)) →
  get f key = Some (FormControl st) →
  ∃ f', setErrorToFormFields_field key s = Normal tt (with_form f' s)
        ∧ get f' key
          = Some (FormControl
                    (mkState (if decide (status st = DISABLED) then DISABLED
                              else INVALID)
                             (Some [("serverError", first)])
                             (dirty st) (touched st)))
        ∧ (status st ≠ DISABLED →
           status (state f') = INVALID ∨ status (state f') = PENDING).
Proof.
  intros Hf Hv Ht.
  destruct (sequence_field s f _ key first rest Hf Hv Ht)
    as (f' & Hrun & Hup & Hget).
  exists f'. split_and!; [done| |].
  - by rewrite Hget, setErrors_leaf.
  - intros Hen. rewrite get_find_path in Ht.
    by eapply update_path_troubled.
Qed.

Lemma sequence_entry_invalidates_witness :
  let s := with_serverError Example.email_taken
             (with_form Example.signup Example.idle) in
  form s = Some Example.signup
  ∧ Js.get (serverError s) "email"
    = Some (Js.Array [Js.Str "Email taken"; Js.Str "Try another"])
  ∧ get Example.signup "email" = Some (FormControl Example.untouched)
  ∧ status Example.untouched ≠ DISABLED
  ∧ ∃ f', setErrorToFormFields_field "email" s = Normal tt (with_form f' s)
          ∧ (status (state f') = INVALID ∨ status (state f') = PENDING).
Proof.
  intros s. split_and!; [reflexivity..|discriminate|].
  destruct (sequence_entry_invalidates s Example.signup Example.untouched
              "email" (Js.Str "Email taken") [Js.Str "Try another"]
              eq_refl eq_refl eq_refl) as (f' & Hrun & _ & Hroot).
  exists f'. split; [exact Hrun|]. apply Hroot. discriminate.
Defined.

(** ** The message formatter: what it reads *)



(** ** The scanner: what it leaves of the service and of the accumulator *)

Lemma own_get_absent {A : Type} (k : string) (l : list (string * A)) :
  k ∉ (fst <$> l) → own_get k l = None.
Proof.
  intros H. destruct (own_get k l) eqn:E; [|done].
  by apply own_get_elem in E.
Qed.

Lemma final_ended (e : option Exception) (o : Descriptor.Obj Slot)
  (m : Js.value) (s : State) :
  final (ended e o m s) = with_message m (with_errorObject o s).
Proof. unfold ended. by destruct e. Qed.

Lemma findErrors_final (controls : list (string * AbstractControl))
  (s : State) :
  ∃ o m, final (findErrors controls s) = with_message m (with_errorObject o s)
         ∧ scanned_from controls (errorObject s) o.
Proof.
  unfold findErrors. rewrite walk_run.
  destruct (walk_end controls (fst <$> controls) (errorObject s) (message s))
    as [[e o] m] eqn:Hw.
  exists o, m. split; [apply final_ended|]. by eapply walk_scanned_from.
Qed.

(** X9.  However a scan ends, it leaves the form, the payload and the
    signals of the service alone; in the accumulator it leaves the
    extensibility and every property whose name is not the name of a child
    of the root, and it removes no property. *)
Theorem scan_frame (controls : list (string * AbstractControl)) (s : State) :
  let s' := final (findErrors controls s) in
  form s' = form s
  ∧ serverError s' = serverError s
  ∧ signals s' = signals s
  ∧ Descriptor.extensible (errorObject s')
    = Descriptor.extensible (errorObject s)
  ∧ (∀ k, k ∉ (fst <$> controls) →
          Descriptor.properties (errorObject s') !! k
          = Descriptor.properties (errorObject s) !! k)
  ∧ (∀ k, is_Some (Descriptor.properties (errorObject s) !! k) →
          is_Some (Descriptor.properties (errorObject s') !! k)).
Proof.
  destruct (findErrors_final controls s) as (o & m & -> & Hext & Hprops).
  simpl. split_and!; [done..| |].
  - intros k Hk. destruct (Hprops k) as [H|(v & Hv & _)]; [done|].
    unfold profile in Hv. by rewrite own_get_absent in Hv.
  - intros k Hsome. destruct (Hprops k) as [->|(v & _ & (p & -> & _) & _)];
      [done|by eexists].
Qed.

Lemma scan_frame_witness :
  let s := with_errorObject
             (Descriptor.write Descriptor.empty "total"
                (Plain (Js.Str "kept")))
             Example.idle in
  ("total" ∉ (fst <$> Example.order))
  ∧ Descriptor.read (errorObject (final (findErrors Example.order s))) "total"
    = Some (Plain (Js.Str "kept")).
Proof.
  intros s.
  assert ("total" ∉ (fst <$> Example.order)) as H.
  { intros Hin. simpl in Hin.
    repeat (apply elem_of_cons in Hin as [Hin|Hin]; [discriminate|]).
    by apply elem_of_nil in Hin. }
  split; [exact H|].
  destruct (scan_frame Example.order s) as (_ & _ & _ & _ & Hkeep & _).
  unfold Descriptor.read. rewrite (Hkeep "total" H). reflexivity.
Defined.

(** ** The scanner: the attributes of an entry *)

Lemma defined_defined {V : Type} (current : option (Descriptor.Property V))
  (v w : V) :
  Descriptor.defined (Some (Descriptor.defined current v)) w
  = Descriptor.defined current w.
Proof. by destruct current. Qed.

Lemma scan_write_other (controls : list (string * AbstractControl))
  (o : Descriptor.Obj Slot) (k k' : string) :
  k' ≠ k →
  Descriptor.properties (scan_write controls o k') !! k
  = Descriptor.properties o !! k.
Proof.
  intros Hne. unfold scan_write.
  destruct (own_get k' controls ≫= scan_slot); [|done].
  by apply properties_write_ne.
Qed.

Lemma scan_write_absent (controls : list (string * AbstractControl))
  (k : string) (keys : list string) :
  ∀ o : Descriptor.Obj Slot,
  k ∉ keys →
  Descriptor.properties (foldl (scan_write controls) o keys) !! k
  = Descriptor.properties o !! k.
Proof.
  induction keys as [|k' keys IH]; intros o Hout; simpl; [done|].
  apply not_elem_of_cons in Hout as [Hne Hout].
  rewrite IH by done. by apply scan_write_other.
Qed.

Lemma scan_write_defined (controls : list (string * AbstractControl))
  (k : string) (v : Slot) (keys : list string) :
  ∀ o : Descriptor.Obj Slot,
  own_get k controls ≫= scan_slot = Some v →
  k ∈ keys →
  Descriptor.properties (foldl (scan_write controls) o keys) !! k
  = Some (Descriptor.defined (Descriptor.properties o !! k) v).
Proof.
  induction keys as [|k' keys IH]; intros o Hv Hin; simpl.
  { by apply elem_of_nil in Hin. }
  destruct (decide (k' = k)) as [->|Hne].
  - assert (Descriptor.properties (scan_write controls o k) !! k
            = Some (Descriptor.defined (Descriptor.properties o !! k) v)) as Hk.
    { unfold scan_write. rewrite Hv. simpl. apply lookup_insert_eq. }
    destruct (decide (k ∈ keys)) as [Hin'|Hout].
    + rewrite IH by done. by rewrite Hk, defined_defined.
    + by rewrite scan_write_absent.
  - apply elem_of_cons in Hin as [->|Hin]; [done|].
    rewrite IH by done. by rewrite scan_write_other.
Qed.

(** X10.  The entry a completed scan has defined holds the value, is
    writable, and keeps the other attributes the property had; a property
    the scan has created is neither enumerable nor configurable, so that it
    is not listed among the keys of the accumulator and cannot be deleted. *)
Theorem scan_entry_attributes (controls : list (string * AbstractControl))
  (s s' : State) (k : string) (c : AbstractControl) (v : Slot) :
  findErrors controls s = Normal tt s' →
  own_get k controls = Some c →
  scan_slot c = Some v →
  ∃ p, Descriptor.properties (errorObject s') !! k = Some p
       ∧ Descriptor.value p = v
       ∧ Descriptor.writable p = true
       ∧ Descriptor.enumerable p
         = from_option Descriptor.enumerable false
             (Descriptor.properties (errorObject s) !! k)
       ∧ Descriptor.configurable p
         = from_option Descriptor.configurable false
             (Descriptor.properties (errorObject s) !! k).
Proof.
  intros Hrun Hc Hv. apply findErrors_completes in Hrun as [_ ->].
  unfold scanned. simpl.
  rewrite (scan_write_defined controls k v);
    [|by rewrite Hc|by eapply own_get_elem].
  eexists. split; [done|].
  by destruct (Descriptor.properties (errorObject s) !! k).
Qed.

Lemma scan_entry_attributes_witness :
  ∃ s', findErrors Example.order Example.idle = Normal tt s'
        ∧ Descriptor.properties (errorObject s') !! "customer"
          = Some (Descriptor.mkProperty (Plain (Js.Str "Fushë e detyrueshme"))
                    true false false).
Proof.
  exists (scanned Example.order Example.idle).
  assert (findErrors Example.order Example.idle
          = Normal tt (scanned Example.order Example.idle)) as Hrun
    by (vm_compute; reflexivity).
  split; [exact Hrun|].
  destruct (scan_entry_attributes Example.order Example.idle _ "customer"
              (FormControl Example.missing)
              (Plain (Js.Str "Fushë e detyrueshme")) Hrun eq_refl eq_refl)
    as (p & Hp & Hval & Hw & He & Hc).
  rewrite Hp. f_equal. destruct p as [v w e c]. simpl in *.
  by rewrite Hval, Hw, He, Hc.
Defined.

(** ** The scanner: arrays it cannot walk *)

Lemma findErrors_stops (controls : list (string * AbstractControl))
  (s : State) :
  completes controls (fst <$> controls) (errorObject s) = false →
  ∃ e s', findErrors controls s = Thrown e s'.
Proof.
  intros Hc. unfold findErrors. rewrite walk_run.
  destruct (walk_end_bad controls _ _ (message s) Hc) as (e & o & m & ->).
  unfold ended. by eexists _, _.
Qed.

Lemma unwalkable_stops (controls : list (string * AbstractControl))
  (s : State) (k : string) (c : AbstractControl) :
  own_get k controls = Some c → control_ok c = false →
  ∃ e s', findErrors controls s = Thrown e s'.
Proof.
  intros Hc Hok. apply findErrors_stops.
  destruct (completes controls (fst <$> controls) (errorObject s)) eqn:E;
    [|done].
  assert (k ∈ fst <$> controls) as Hk by by eapply own_get_elem.
  pose proof (completes_control_ok _ _ _ _ _ E Hk Hc). congruence.
Qed.

(** X11.  An array whose rows are fields, not groups, cannot be scanned: a
    root that has a [FormArray] child with a [FormControl] among its rows
    makes every scan throw, whatever the state of the controls and of the
    accumulator. *)
Theorem array_of_fields_throws (controls : list (string * AbstractControl))
  (s : State) (k : string) (st rst : ControlState)
  (rows : list AbstractControl) :
  own_get k controls = Some (FormArray st rows) →
  FormControl rst ∈ rows →
  ∃ e s', findErrors controls s = Thrown e s'.
Proof.
  intros Hc Hrow. eapply unwalkable_stops; [done|]. simpl.
  destruct (forallb row_ok rows) eqn:E; [|done].
  eapply forallb_forall in E; [|by apply list_elem_of_In]. done.
Qed.

Lemma array_of_fields_throws_witness :
  let controls := [("name", Example.field);
                   ("tags", FormArray Example.untouched
                              [Example.field; Example.field])] in
  own_get "tags" controls
  = Some (FormArray Example.untouched [Example.field; Example.field])
  ∧ FormControl Example.untouched ∈ [Example.field; Example.field]
  ∧ ∃ e s', findErrors controls Example.idle = Thrown e s'.
Proof.
  intros controls.
  assert (FormControl Example.untouched ∈ [Example.field; Example.field])
    as H by apply list_elem_of_here.
  split_and!; [reflexivity|exact H|].
  exact (array_of_fields_throws controls Example.idle "tags" Example.untouched
           Example.untouched _ eq_refl H).
Defined.

(** X12.  A member of a row that is invalid and dirty or touched while it
    has no failure-kind set of its own, as a group is whose only failure is
    that of a field inside it, makes every scan throw. *)
Theorem row_member_without_kinds_throws
  (controls : list (string * AbstractControl)) (s : State) (k name : string)
  (st : ControlState) (rows : list AbstractControl) (row c : AbstractControl)
  (members : list (string * AbstractControl)) :
  own_get k controls = Some (FormArray st rows) →
  row ∈ rows →
  controls_of row = Some members →
  own_get name members = Some c →
  hasError c = true →
  errors (state c) = None →
  ∃ e s', findErrors controls s = Thrown e s'.
Proof.
  intros Hc Hrow Hmembers Hname He Herrs.
  eapply unwalkable_stops; [done|]. simpl.
  destruct (forallb row_ok rows) eqn:E; [|done].
  eapply forallb_forall in E; [|by apply list_elem_of_In].
  unfold row_ok in E. rewrite Hmembers in E.
  eapply forallb_forall in E;
    [|apply list_elem_of_In; by eapply own_get_elem].
  rewrite Hname in E. simpl in E.
  apply member_ok_errors in E as [errs Hsome]; [|done]. congruence.
Qed.

Lemma row_member_without_kinds_throws_witness :
  let row := FormGroup Example.in_error
               [("size", FormGroup Example.in_error Example.shipping)] in
  let controls := [("items", FormArray Example.in_error [row])] in
  own_get "items" controls = Some (FormArray Example.in_error [row])
  ∧ row ∈ [row]
  ∧ hasError (FormGroup Example.in_error Example.shipping) = true
  ∧ ∃ e s', findErrors controls Example.idle = Thrown e s'.
Proof.
  intros row controls.
  assert (row ∈ [row]) as H by apply list_elem_of_here.
  split_and!; [reflexivity|exact H|reflexivity|].
  exact (row_member_without_kinds_throws controls Example.idle "items" "size"
           Example.in_error [row] row
           (FormGroup Example.in_error Example.shipping) _
           eq_refl H eq_refl eq_refl eq_refl eq_refl).
Defined.

(** ** The scanner: entries of fields that are no longer in error *)

Lemma scan_entry (controls : list (string * AbstractControl)) (s s' : State)
  (k : string) (c : AbstractControl) (v : Slot) :
  own_get k controls = Some c →
  scan_slot c = Some v →
  findErrors controls s = Normal tt s' →
  Descriptor.read (errorObject s') k = Some v.
Proof.
  intros Hc Hv Hrun. apply findErrors_completes in Hrun as [_ ->].
  apply settled_read. unfold scanned. simpl.
  apply scan_settled; [by rewrite Hc|left; by eapply own_get_elem].
Qed.

Lemma preserves_unscanned (controls : list (string * AbstractControl))
  (k : string) :
  own_get k controls ≫= scan_slot = None →
  preserves k (findErrors controls).
Proof.
  intros H. destruct (own_get k controls) as [c|] eqn:Hc; simpl in H.
  - by eapply preserves_unwritten.
  - intros s. destruct (findErrors_final controls s)
      as (o & m & -> & _ & Hprops). simpl.
    destruct (Hprops k) as [Hk|(v & Hv & _)]; [done|].
    unfold profile in Hv. by rewrite Hc in Hv.
Qed.

(** ** From the mapper to the scanner *)

Lemma split_path_plain (key : string) :
  "."%char ∉ list_ascii_of_string key → split_path key = [key].
Proof.
  induction key as [|ch key IH]; simpl; [done|].
  intros H. apply not_elem_of_cons in H as [Hne H].
  rewrite decide_False by done. by rewrite IH.
Qed.

Lemma formatMessage_serverError (m : Js.value) :
  formatMessage [("serverError", m)]
  = if Js.truthy m then m else Js.Str "".
Proof.
  unfold formatMessage. simpl. unfold hasKind. simpl.
  by destruct (Js.truthy m).
Qed.

(** X13.  A server error reaches the accumulator.  Once the mapper has
    attached the first message of a sequence to a field of the root that is
    enabled and dirty or touched, every scan of the form that completes
    leaves that message under the name of the field (the empty string, if
    the message is not truthy). *)
Theorem server_error_reaches_accumulator (s : State) (gst cst : ControlState)
  (cs : list (string * AbstractControl)) (key : string) (first : Js.value)
  (rest : list Js.value) :
  form s = Some (FormGroup gst cs) →
  Js.get (serverError s) key = Some (Js.Array (first :: rest)) →
  "."%char ∉ list_ascii_of_string key →
  own_get key cs = Some (FormControl cst) →
  status cst ≠ DISABLED →
  dirty cst || touched cst = true →
  ∃ f' cs',
    setErrorToFormFields_field key s = Normal tt (with_form f' s)
    ∧ controls_of f' = Some cs'
    ∧ ∀ s1 s2, findErrors cs' s1 = Normal tt s2 →
               Descriptor.read (errorObject s2) key
               = Some (Plain (if Js.truthy first then first else Js.Str "")).
Proof.
  intros Hf Hv Hplain Hc Hen Hd.
  assert (get (FormGroup gst cs) key = Some (FormControl cst)) as Hget.
  { unfold get. rewrite split_path_plain by done. simpl. by rewrite Hc. }
  destruct (sequence_field s _ _ key first rest Hf Hv Hget)
    as (f' & Hrun & Hup & _).
  rewrite split_path_plain in Hup by done. simpl in Hup.
  rewrite Hc in Hup. simpl in Hup. injection Hup as <-.
  eexists _, _. split_and!; [exact Hrun|reflexivity|].
  intros s1 s2 Hscan.
  eapply scan_entry; [|
    |exact Hscan].
  - apply own_get_own_set_eq. by eexists.
  - rewrite setErrors_leaf, decide_False by done. simpl.
    unfold hasError, invalid. simpl. rewrite Hd. simpl.
    by rewrite formatMessage_serverError.
Qed.

Lemma server_error_reaches_accumulator_witness :
  let touched_field := mkState VALID None false true in
  let f := FormGroup Example.untouched [("email", FormControl touched_field)] in
  let s := with_serverError Example.email_taken (with_form f Example.idle) in
  form s = Some f
  ∧ Js.get (serverError s) "email"
    = Some (Js.Array [Js.Str "Email taken"; Js.Str "Try another"])
  ∧ own_get "email" [("email", FormControl touched_field)]
    = Some (FormControl touched_field)
  ∧ ∃ f' cs' s2,
      setErrorToFormFields_field "email" s = Normal tt (with_form f' s)
      ∧ controls_of f' = Some cs'
      ∧ findErrors cs' (with_form f' s) = Normal tt s2
      ∧ Descriptor.read (errorObject s2) "email"
        = Some (Plain (Js.Str "Email taken")).
Proof.
  intros touched_field f s. split_and!; [reflexivity..|].
  assert ("."%char ∉ list_ascii_of_string "email") as Hplain.
  { intros Hin. simpl in Hin.
    repeat (apply elem_of_cons in Hin as [Hin|Hin]; [discriminate|]).
    by apply elem_of_nil in Hin. }
  assert (status touched_field ≠ DISABLED) as Hen by discriminate.
  destruct (server_error_reaches_accumulator s Example.untouched touched_field
              [("email", FormControl touched_field)] "email"
              (Js.Str "Email taken") [Js.Str "Try another"]
              eq_refl eq_refl Hplain eq_refl Hen eq_refl)
    as (f' & cs' & Hrun & Hcs & Hscan).
  exists f', cs', (scanned cs' (with_form f' s)).
  assert (findErrors cs' (with_form f' s)
          = Normal tt (scanned cs' (with_form f' s))) as Hs.
  { pose proof Hrun as Hrun0. vm_compute in Hrun0. injection Hrun0 as <-.
    simpl in Hcs. injection Hcs as <-. vm_compute. reflexivity. }
  split_and!; [exact Hrun|exact Hcs|exact Hs|exact (Hscan _ _ Hs)].
Defined.

(** ** The submission of an invalid form *)

Lemma invalidFormHasSubmit_run (s : State) (f : AbstractControl) :
  form s = Some f →
  invalidFormHasSubmit s
  = Normal tt (with_form (setErrors [] (markAllAsTouched f)) s).
Proof.
  intros Hf. unfold invalidFormHasSubmit.
  rewrite bind_run. unfold gets at 1. simpl. rewrite Hf.
  rewrite bind_run. unfold set_form at 1, modify at 1. simpl.
  by rewrite bind_run.
Qed.

Lemma state_markAllAsTouched (c : AbstractControl) :
  state (markAllAsTouched c)
  = mkState (status (state c)) (errors (state c)) (dirty (state c)) true.
Proof. by destruct c. Qed.

Lemma own_get_fmap {A B : Type} (g : A → B) (k : string)
  (l : list (string * A)) :
  own_get k ((λ '(k, x), (k, g x)) <$> l) = g <$> own_get k l.
Proof.
  induction l as [|[k' x] l IH]; csimpl; [done|].
  by destruct (decide (k' = k)).
Qed.

Lemma keys_fmap {A B : Type} (g : A → B) (l : list (string * A)) :
  fst <$> ((λ '(k, x), (k, g x)) <$> l) = fst <$> l.
Proof.
  induction l as [|[k' x] l IH]; csimpl; [done|]. by rewrite IH.
Qed.

Lemma find_child_markAllAsTouched (c : AbstractControl) (name : string) :
  find_child (markAllAsTouched c) name
  = markAllAsTouched <$> find_child c name.
Proof.
  destruct c as [st|st cs|st cs]; simpl; [done| |].
  - apply own_get_fmap.
  - rewrite length_fmap.
    destruct (index_of name (length cs)) as [i|]; simpl; [|done].
    apply list_lookup_fmap.
Qed.

Lemma find_path_markAllAsTouched (p : list string) :
  ∀ c : AbstractControl,
  find_path p (markAllAsTouched c) = markAllAsTouched <$> find_path p c.
Proof.
  induction p as [|name p IH]; intros c; simpl; [done|].
  rewrite find_child_markAllAsTouched.
  destruct (find_child c name) as [child|]; simpl; [apply IH|done].
Qed.

(** X14.  The submission of an invalid form marks every control of the
    form as touched, at whatever depth, and changes nothing else of a
    control below the root: its status, its failure kinds and its dirty
    flag are what they were. *)
Theorem submit_touches_every_control (s : State) (f c : AbstractControl)
  (p : list string) :
  form s = Some f →
  find_path p f = Some c →
  ∃ f' c', invalidFormHasSubmit s = Normal tt (with_form f' s)
           ∧ find_path p f' = Some c'
           ∧ touched (state c') = true
           ∧ dirty (state c') = dirty (state c)
           ∧ (p ≠ [] → status (state c') = status (state c)
                       ∧ errors (state c') = errors (state c)).
Proof.
  intros Hf Hc. rewrite (invalidFormHasSubmit_run s f Hf).
  destruct p as [|name p].
  - simpl in Hc. injection Hc as <-.
    eexists _, _. split_and!; [done|done| | |done].
    + unfold setErrors, updateControlsErrors.
      by rewrite !state_with_state, state_markAllAsTouched.
    + unfold setErrors, updateControlsErrors.
      by rewrite !state_with_state, state_markAllAsTouched.
  - exists (setErrors [] (markAllAsTouched f)), (markAllAsTouched c).
    split_and!; [done| | | |].
    + by rewrite find_path_setErrors, find_path_markAllAsTouched, Hc.
    + by rewrite state_markAllAsTouched.
    + by rewrite state_markAllAsTouched.
    + intros _. by rewrite state_markAllAsTouched.
Qed.

Lemma submit_touches_every_control_witness :
  let s := with_form Example.signup Example.idle in
  form s = Some Example.signup
  ∧ find_path ["address"; "city"] Example.signup = Some Example.field
  ∧ ∃ f' c', invalidFormHasSubmit s = Normal tt (with_form f' s)
             ∧ find_path ["address"; "city"] f' = Some c'
             ∧ touched (state c') = true.
Proof.
  intros s. split_and!; [reflexivity..|].
  destruct (submit_touches_every_control s Example.signup Example.field
              ["address"; "city"] eq_refl eq_refl)
    as (f' & c' & Hrun & Hc' & Ht & _).
  exists f', c'. split_and!; [exact Hrun|exact Hc'|exact Ht].
Defined.

Lemma forallb_same {A : Type} (f g : A → bool) (l : list A) :
  (∀ x, f x = g x) → forallb f l = forallb g l.
Proof.
  intros H. induction l as [|x l IH]; simpl; [done|]. by rewrite H, IH.
Qed.

Lemma allControlsDisabled_touched (st : ControlState) (c : AbstractControl) :
  status st = status (state c) →
  allControlsDisabled (with_state st (markAllAsTouched c))
  = allControlsDisabled c.
Proof.
  intros Hst.
  destruct c as [cst|cst cs|cst cs]; simpl in *; unfold enabled; simpl;
    rewrite Hst.
  - done.
  - rewrite keys_fmap, length_fmap. f_equal.
    apply forallb_same. intros k. rewrite own_get_fmap.
    destruct (own_get k cs) as [child|]; simpl; [|done].
    by rewrite state_markAllAsTouched.
  - rewrite length_fmap. f_equal.
    induction cs as [|child cs IH]; csimpl; [done|].
    by rewrite state_markAllAsTouched, IH.
Qed.

Lemma submitted_status (f : AbstractControl) :
  status (state (setErrors [] (markAllAsTouched f)))
  = if allControlsDisabled f then DISABLED else INVALID.
Proof.
  unfold setErrors, updateControlsErrors. rewrite !state_with_state. simpl.
  unfold calculateStatus.
  rewrite allControlsDisabled_touched
    by by rewrite state_markAllAsTouched.
  by rewrite state_with_state.
Qed.

(** X15.  The submission leaves the root with the empty failure-kind set,
    which is truthy: the form is invalid afterwards whatever its controls
    say, also when every one of them is valid, unless all of them are
    disabled. *)
Theorem submit_invalidates_form (s : State) (f : AbstractControl) :
  form s = Some f →
  ∃ f', invalidFormHasSubmit s = Normal tt (with_form f' s)
        ∧ errors (state f') = Some []
        ∧ status (state f')
          = if allControlsDisabled f then DISABLED else INVALID.
Proof.
  intros Hf. rewrite (invalidFormHasSubmit_run s f Hf).
  eexists. split_and!; [done|apply errors_setErrors|apply submitted_status].
Qed.

Lemma submit_invalidates_form_witness :
  let s := with_form Example.signup Example.idle in
  form s = Some Example.signup
  ∧ status (state Example.signup) = VALID
  ∧ ∃ f', invalidFormHasSubmit s = Normal tt (with_form f' s)
          ∧ status (state f') = INVALID.
Proof.
  intros s. split_and!; [reflexivity..|].
  destruct (submit_invalidates_form s Example.signup eq_refl)
    as (f' & Hrun & _ & Hst).
  exists f'. split; [exact Hrun|exact Hst].
Defined.

(** X16.  After the submission a scan reports the fields the user never
    visited.  A field of the root that is invalid with a failure-kind set,
    touched or not, has its message recorded by every run of the
    subscription's callback on the submitted form that completes; and the
    submitted form is invalid, so the callback does scan. *)
Theorem submit_then_scan_reports_field (s : State) (gst st : ControlState)
  (cs : list (string * AbstractControl)) (k : string)
  (errs : ValidationErrors) :
  form s = Some (FormGroup gst cs) →
  own_get k cs = Some (FormControl st) →
  status st = INVALID →
  errors st = Some errs →
  ∃ f', invalidFormHasSubmit s = Normal tt (with_form f' s)
        ∧ invalid f' = true
        ∧ ∀ s1 s2, onValueChanges f' s1 = Normal tt s2 →
                   Descriptor.read (errorObject s2) k
                   = Some (Plain (formatMessage errs)).
Proof.
  intros Hf Hc Hst Herrs.
  pose proof (invalidFormHasSubmit_run s _ Hf) as Hrun.
  pose proof (submitted_status (FormGroup gst cs)) as Hstatus.
  set (f' := setErrors [] (markAllAsTouched (FormGroup gst cs))) in *.
  assert (allControlsDisabled (FormGroup gst cs) = false) as Hall.
  { simpl. apply andb_false_iff. left.
    destruct (forallb _ _) eqn:E; [|done].
    eapply forallb_forall in E;
      [|apply list_elem_of_In; by eapply own_get_elem].
    rewrite Hc in E. simpl in E. unfold enabled in E. simpl in E.
    by rewrite Hst in E. }
  rewrite Hall in Hstatus.
  assert (invalid f' = true) as Hinv
    by (unfold invalid; by rewrite Hstatus).
  exists f'. split_and!; [done..|].
  intros s1 s2. unfold onValueChanges. rewrite Hinv.
  subst f'. rewrite bind_run. simpl. intros Hscan.
  eapply scan_entry; [| |exact Hscan].
  - rewrite own_get_fmap, Hc. reflexivity.
  - simpl. unfold hasError, invalid. simpl. rewrite Hst, Herrs.
    simpl. by rewrite orb_true_r.
Qed.

Lemma submit_then_scan_reports_field_witness :
  let never_visited := mkState INVALID (Some [("required", Js.Bool true)])
                         false false in
  let f := FormGroup (mkState INVALID None false false)
             [("email", FormControl never_visited)] in
  let s := with_form f Example.idle in
  hasError (FormControl never_visited) = false
  ∧ onValueChanges f s = Normal tt s
  ∧ ∃ f' s2, invalidFormHasSubmit s = Normal tt (with_form f' s)
             ∧ onValueChanges f' (with_form f' s) = Normal tt s2
             ∧ Descriptor.read (errorObject s2) "email"
               = Some (Plain (Js.Str "Fushë e detyrueshme")).
Proof.
  intros never_visited f s. split_and!; [reflexivity..|].
  destruct (submit_then_scan_reports_field s
              (mkState INVALID None false false) never_visited
              [("email", FormControl never_visited)] "email"
              [("required", Js.Bool true)] eq_refl eq_refl eq_refl eq_refl)
    as (f' & Hrun & _ & Hscan).
  assert (f' = setErrors [] (markAllAsTouched f)) as Hf'.
  { rewrite (invalidFormHasSubmit_run s f eq_refl) in Hrun.
    injection Hrun as H. symmetry. exact H. }
  exists f'. eexists. split_and!; [exact Hrun| |].
  - rewrite Hf'. vm_compute. reflexivity.
  - apply (Hscan (with_form f' s)). rewrite Hf'. vm_compute. reflexivity.
Defined.

(** ** The subscription: entries of fields that are no longer in error *)

(** X17.  The service never clears an entry.  The message that a run of
    the subscription's callback has recorded for a field is still there
    after any later run, however it ends and on whatever form: one that is
    no longer invalid is not scanned at all, and in one that is scanned the
    field that is no longer invalid and dirty or touched, or is missing,
    has its entry left alone. *)
Theorem entry_outlives_error (f f' : AbstractControl)
  (controls : list (string * AbstractControl)) (s s1 : State) (k : string)
  (st : ControlState) (errs : ValidationErrors) :
  controls_of f = Some controls →
  invalid f = true →
  own_get k controls = Some (FormControl st) →
  hasError (FormControl st) = true →
  errors st = Some errs →
  onValueChanges f s = Normal tt s1 →
  (invalid f' = false
   ∨ ∀ controls', controls_of f' = Some controls' →
                  own_get k controls' ≫= scan_slot = None) →
  Descriptor.read (errorObject (final (onValueChanges f' s1))) k
  = Some (Plain (formatMessage errs)).
Proof.
  intros Hcs Hinv Hc He Herrs Hrun Hlater.
  assert (Descriptor.read (errorObject s1) k
          = Some (Plain (formatMessage errs))) as Hentry.
  { unfold onValueChanges in Hrun. rewrite Hinv, bind_run, Hcs in Hrun.
    simpl in Hrun.
    apply (scan_entry controls s s1 k (FormControl st)); [done| |done].
    simpl. by rewrite He, Herrs. }
  unfold onValueChanges.
  destruct (invalid f') eqn:Hinv'; [|done].
  destruct Hlater as [?|Hlater]; [done|].
  rewrite bind_run.
  destruct (controls_of f') as [controls'|] eqn:Hcs'; simpl; [|done].
  unfold Descriptor.read.
  rewrite (preserves_unscanned controls' k (Hlater _ eq_refl) s1).
  exact Hentry.
Qed.

Lemma entry_outlives_error_witness :
  let f := FormGroup Example.in_error Example.order in
  let corrected :=
    FormGroup Example.untouched
      (own_set "customer" Example.field Example.order) in
  ∃ s1, onValueChanges f Example.idle = Normal tt s1
        ∧ invalid corrected = false
        ∧ Descriptor.read (errorObject (final (onValueChanges corrected s1)))
            "customer"
          = Some (Plain (Js.Str "Fushë e detyrueshme")).
Proof.
  intros f corrected. exists (scanned Example.order Example.idle).
  assert (onValueChanges f Example.idle
          = Normal tt (scanned Example.order Example.idle)) as Hrun
    by (vm_compute; reflexivity).
  split_and!; [exact Hrun|reflexivity|].
  exact (entry_outlives_error f corrected Example.order Example.idle _
           "customer" Example.missing [("required", Js.Bool true)]
           eq_refl eq_refl eq_refl eq_refl eq_refl Hrun (or_introl eq_refl)).
Defined.

(** ** From the mapper to the scanner: a field nobody has visited *)

(** X18.  The mapper does not mark the field it attaches a server error
    to.  A field of the root that is neither dirty nor touched takes the
    error, and no scan of the form records it: however the scan ends, the
    entry under the name of the field is what it was. *)
Theorem server_error_on_pristine_field_not_reported (s : State)
  (gst cst : ControlState) (cs : list (string * AbstractControl))
  (key : string) (first : Js.value) (rest : list Js.value) :
  form s = Some (FormGroup gst cs) →
  Js.get (serverError s) key = Some (Js.Array (first :: rest)) →
  "."%char ∉ list_ascii_of_string key →
  own_get key cs = Some (FormControl cst) →
  dirty cst = false →
  touched cst = false →
  ∃ f' cs',
    setErrorToFormFields_field key s = Normal tt (with_form f' s)
    ∧ controls_of f' = Some cs'
    ∧ carries (own_get key cs') first
    ∧ ∀ s1, Descriptor.properties
              (errorObject (final (findErrors cs' s1))) !! key
            = Descriptor.properties (errorObject s1) !! key.
Proof.
  intros Hf Hv Hplain Hc Hd Ht.
  assert (get (FormGroup gst cs) key = Some (FormControl cst)) as Hget.
  { unfold get. rewrite split_path_plain by done. simpl. by rewrite Hc. }
  destruct (sequence_field s _ _ key first rest Hf Hv Hget)
    as (f' & Hrun & Hup & _).
  rewrite split_path_plain in Hup by done. simpl in Hup.
  rewrite Hc in Hup. simpl in Hup. injection Hup as <-.
  assert (own_get key
            (own_set key (setErrors [("serverError", first)] (FormControl cst))
               cs)
          = Some (setErrors [("serverError", first)] (FormControl cst)))
    as Hnew by (apply own_get_own_set_eq; by eexists).
  eexists _, _. split_and!; [exact Hrun|reflexivity| |].
  - eexists. split; [exact Hnew|apply errors_setErrors].
  - intros s1. eapply preserves_unwritten; [exact Hnew|].
    rewrite setErrors_leaf. simpl. unfold hasError. simpl.
    rewrite Hd, Ht. by rewrite andb_false_r.
Qed.

Lemma server_error_on_pristine_field_not_reported_witness :
  let s := with_serverError Example.email_taken
             (with_form Example.login Example.idle) in
  form s = Some Example.login
  ∧ own_get "email" [("email", Example.field)] = Some Example.field
  ∧ ∃ f' cs',
      setErrorToFormFields_field "email" s = Normal tt (with_form f' s)
      ∧ controls_of f' = Some cs'
      ∧ carries (own_get "email" cs') (Js.Str "Email taken")
      ∧ Descriptor.properties
          (errorObject (final (findErrors cs' (with_form f' s)))) !! "email"
        = None.
Proof.
  intros s. split_and!; [reflexivity..|].
  assert ("."%char ∉ list_ascii_of_string "email") as Hplain.
  { intros Hin. simpl in Hin.
    repeat (apply elem_of_cons in Hin as [Hin|Hin]; [discriminate|]).
    by apply elem_of_nil in Hin. }
  destruct (server_error_on_pristine_field_not_reported s Example.untouched
              Example.untouched [("email", Example.field)] "email"
              (Js.Str "Email taken") [Js.Str "Try another"]
              eq_refl eq_refl Hplain eq_refl eq_refl eq_refl)
    as (f' & cs' & Hrun & Hcs & Hcarries & Hscan).
  exists f', cs'. split_and!; [exact Hrun|exact Hcs|exact Hcarries|].
  rewrite (Hscan (with_form f' s)). reflexivity.
Defined.

(** ** The server-error mapper: values that are neither sequences nor
    objects *)

(** X19.  An entry whose value is [null] is not skipped: it is taken for
    a nested object, and listing its keys throws. *)
Theorem null_entry_throws (s : State) (key : string) (v : Js.value) :
  Js.get (serverError s) key = Some v →
  Js.keys v = None →
  setErrorToFormFields_field key s
  = Thrown (TypeError "Cannot convert undefined or null to object") s.
Proof.
  intros Hv Hk. unfold setErrorToFormFields_field.
  rewrite bind_run. simpl. rewrite bind_run, (prop_run _ _ _ _ Hv).
  assert (Js.isArray v = false) as -> by by destruct v.
  simpl. unfold setErrorsToNestedFields.
  rewrite bind_run. simpl. rewrite bind_run, (prop_run _ _ _ _ Hv).
  rewrite bind_run. unfold Object_keys. by rewrite Hk.
Qed.

Lemma null_entry_throws_witness :
  let payload := Js.Object [("email", Js.Null)] in
  Js.get payload "email" = Some Js.Null
  ∧ Js.keys Js.Null = None
  ∧ ∃ s', organizeServerErrors payload Example.login Example.idle
          = Thrown (TypeError "Cannot convert undefined or null to object") s'.
Proof.
  intros payload. split_and!; [reflexivity..|].
  exists (with_serverError payload (with_form Example.login Example.idle)).
  unfold organizeServerErrors. simpl.
  rewrite bind_run. simpl. rewrite bind_run. simpl.
  unfold setErrorToFormFields. rewrite bind_run. simpl.
  rewrite bind_run. simpl. rewrite bind_run.
  by rewrite (null_entry_throws
                (with_serverError payload
                   (with_form Example.login Example.idle))
                "email" Js.Null eq_refl eq_refl).
Defined.

(** X20.  An entry whose value has no keys of its own and is no sequence
    (a number, a boolean, the empty string, the empty object) is dropped
    without a trace, also when its key names a field. *)
Theorem keyless_entry_dropped (s : State) (key : string) (v : Js.value) :
  Js.get (serverError s) key = Some v →
  Js.isArray v = false →
  Js.keys v = Some [] →
  setErrorToFormFields_field key s = Normal tt s.
Proof.
  intros Hv Harr Hk. unfold setErrorToFormFields_field.
  rewrite bind_run. simpl. rewrite bind_run, (prop_run _ _ _ _ Hv).
  rewrite Harr. simpl. unfold setErrorsToNestedFields.
  rewrite bind_run. simpl. rewrite bind_run, (prop_run _ _ _ _ Hv).
  rewrite bind_run. unfold Object_keys. by rewrite Hk.
Qed.

Lemma keyless_entry_dropped_witness :
  let s := with_serverError (Js.Object [("email", Js.Number 400)])
             (with_form Example.login Example.idle) in
  Js.get (serverError s) "email" = Some (Js.Number 400)
  ∧ get Example.login "email" = Some Example.field
  ∧ setErrorToFormFields_field "email" s = Normal tt s.
Proof.
  intros s. split_and!; [reflexivity..|].
  exact (keyless_entry_dropped s "email" (Js.Number 400)
           eq_refl eq_refl eq_refl).
Defined.

(** ** The server-error mapper: a failure part of the way *)

Lemma find_path_prefix (q r : list string) (c : AbstractControl) :
  find_path q c = None → find_path (q ++ r) c = None.
Proof. intros H. by rewrite find_path_app, H. Qed.

Lemma get_attach_None (errs : ValidationErrors) (f f' : AbstractControl)
  (key path : string) :
  update_path (split_path key) (setErrors errs) f = Some f' →
  get f path = None → get f' path = None.
Proof.
  intros Hup Hnone. rewrite get_find_path in *.
  rewrite (update_path_elsewhere errs _ f f' _ Hup); [done|].
  intros [r Hr].
  assert (find_path (split_path key) f = None) as Hkey
    by (rewrite Hr; by apply find_path_prefix).
  by rewrite (update_path_None _ (setErrors errs) f Hkey) in Hup.
Qed.

(** X21.  The mapper does not undo what it has done when it fails.  With a
    sequence entry for a field followed by a nested entry whose keys name
    nothing in the form, the call throws at the nested entry; the field
    keeps the server error it was given before, and the entries after the
    failing one are never looked at. *)
Theorem failure_keeps_earlier_entry (s : State) (f target : AbstractControl)
  (k1 k2 inner : string) (first v : Js.value) (more : list Js.value)
  (props rest : list (string * Js.value)) :
  k1 ≠ k2 →
  get f k1 = Some target →
  get f k2 = None →
  get f inner = None →
  ∃ s', organizeServerErrors
          (Js.Object ((k1, Js.Array (first :: more))
                      :: (k2, Js.Object ((inner, v) :: props)) :: rest)) f s
        = Thrown (TypeError "Cannot read properties of null (reading 'get')")
                 s'
        ∧ carries (form s' ≫= λ f', get f' k1) first.
Proof.
  intros Hne Ht Hk2 Hinner.
  set (payload := Js.Object ((k1, Js.Array (first :: more))
                             :: (k2, Js.Object ((inner, v) :: props)) :: rest)).
  set (s0 := with_serverError payload (with_form f s)).
  assert (Js.get (serverError s0) k1 = Some (Js.Array (first :: more))) as Hv1.
  { simpl. by rewrite decide_True. }
  destruct (sequence_field s0 f target k1 first more eq_refl Hv1 Ht)
    as (f' & Hrun & Hup & Hget).
  assert (Js.get (serverError (with_form f' s0)) k2
          = Some (Js.Object ((inner, v) :: props))) as Hv2.
  { simpl. rewrite decide_False by done. by rewrite decide_True. }
  exists (with_form f' s0). split.
  - unfold organizeServerErrors. simpl.
    rewrite bind_run. simpl. rewrite bind_run. simpl.
    unfold setErrorToFormFields. rewrite bind_run. simpl.
    rewrite bind_run. simpl. rewrite bind_run.
    fold payload. fold s0. rewrite Hrun.
    rewrite bind_run, (nested_dispatch _ _ _ Hv2). simpl.
    rewrite bind_run.
    by rewrite (nested_field_throws (with_form f' s0) f' k2 inner _ eq_refl
                  (get_attach_None _ _ _ _ _ Hup Hinner)
                  (get_attach_None _ _ _ _ _ Hup Hk2)).
  - simpl. rewrite Hget. eexists. split; [done|apply errors_setErrors].
Qed.

Lemma failure_keeps_earlier_entry_witness :
  let payload :=
    Js.Object [("email", Js.Array [Js.Str "Email taken"]);
               ("profile", Js.Object [("age", Js.Str "Too young")]);
               ("password", Js.Array [Js.Str "Too short"])] in
  let f := FormGroup Example.untouched
             [("email", Example.field); ("password", Example.field)] in
  get f "email" = Some Example.field
  ∧ get f "profile" = None
  ∧ get f "age" = None
  ∧ ∃ s', organizeServerErrors payload f Example.idle
          = Thrown (TypeError "Cannot read properties of null (reading 'get')")
                   s'
          ∧ carries (form s' ≫= λ f', get f' "email") (Js.Str "Email taken").
Proof.
  intros payload f. split_and!; [reflexivity..|].
  assert ("email" ≠ "profile") as Hne by discriminate.
  exact (failure_keeps_earlier_entry Example.idle f Example.field
           "email" "profile" "age" (Js.Str "Email taken") (Js.Str "Too young")
           [] [] [("password", Js.Array [Js.Str "Too short"])]
           Hne eq_refl eq_refl eq_refl).
Defined.
